(** * Diffusion-Model: the DDPM noise schedule, forward noising and reverse sampling

    A shallow embedding of the class [Diffusion] of [src/ddpm.py] and of the
    torch operations it calls.

    Numbers.  Tensor entries of floating type are modelled as real numbers
    ([R]): the statements below are about the exact arithmetic that the
    float32 code approximates, so rounding, overflow, underflow and NaN are
    outside the model.  [sqrt] and [/] of [R] are total; they agree with the
    exact value of the torch operations wherever the latter is finite.
    Integer tensors hold [Z].

    Tensors.  A tensor of rank [r] is a nested list of depth [r]; binary
    operations follow torch's broadcasting rule dimension by dimension and
    raise where torch raises.

    Effects.  The methods run in a monad over a [World] that holds what the
    code mutates or consumes behind the scenes: the predictor's
    training/evaluation flag, the global gradient mode and the global random
    generator.  A Python exception is a [Raise] result; the world at the time
    of the exception is the world the caller sees. *)

From Stdlib Require Import Reals Lra Lia List ZArith Bool PeanoNat.
Import ListNotations.

(* ================================================================= *)
(** ** Python results *)

Inductive exn : Type :=
| IndexError               (* an index outside a tensor's bounds *)
| RuntimeError             (* a torch argument check, or sizes that do not broadcast *)
| ModelError (code : nat). (* whatever the predictor's forward pass raises *)

Inductive result (A : Type) : Type :=
| Ok (a : A)
| Raise (e : exn).
Arguments Ok {A} a.
Arguments Raise {A} e.

Definition rbind {A B} (m : result A) (k : A -> result B) : result B :=
  match m with
  | Ok a => k a
  | Raise e => Raise e
  end.

Declare Scope result_scope.
Delimit Scope result_scope with res.
Notation "x <- e ;; k" := (rbind e (fun x => k))
  (at level 61, e at next level, right associativity) : result_scope.

Fixpoint map_r {A B} (f : A -> result B) (xs : list A) : result (list B) :=
  match xs with
  | [] => Ok []
  | x :: xs' => (b <- f x ;; bs <- map_r f xs' ;; Ok (b :: bs))%res
  end.

Fixpoint zip_with {A B C} (f : A -> B -> result C) (xs : list A) (ys : list B)
  : result (list C) :=
  match xs, ys with
  | x :: xs', y :: ys' => (c <- f x y ;; cs <- zip_with f xs' ys' ;; Ok (c :: cs))%res
  | _, _ => Ok []
  end.

(* ================================================================= *)
(** ** Tensors *)

Fixpoint tensor (A : Type) (r : nat) : Type :=
  match r with
  | O => A
  | S r' => list (tensor A r')
  end.

(** [x.shape == sh].  A nested list with an empty dimension carries no
    trace of the sizes behind it, so those are not checked. *)
Fixpoint has_shape {A} (r : nat) : list nat -> tensor A r -> bool :=
  match r return list nat -> tensor A r -> bool with
  | O => fun sh _ => match sh with [] => true | _ => false end
  | S r' => fun sh x =>
      match sh with
      | [] => false
      | d :: sh' => (length x =? d)%nat && forallb (has_shape r' sh') x
      end
  end.

(** [x[i0, i1, ...]], with [dflt] where the index leaves the tensor. *)
Fixpoint tget {A} (r : nat) (dflt : A) : list nat -> tensor A r -> A :=
  match r return list nat -> tensor A r -> A with
  | O => fun _ a => a
  | S r' => fun idx x =>
      match idx with
      | [] => dflt
      | i :: idx' =>
          match nth_error x i with
          | Some e => tget r' dflt idx' e
          | None => dflt
          end
      end
  end.

(** A unary elementwise operation, or an operation between a Python scalar
    and a tensor ([1 - alpha], [x * 255], [torch.sqrt(alpha)]). *)
Fixpoint tmap {A B} (r : nat) (f : A -> B) : tensor A r -> tensor B r :=
  match r return tensor A r -> tensor B r with
  | O => f
  | S r' => map (tmap r' f)
  end.

(** One dimension of torch's broadcasting: equal sizes are paired off, a
    size of one is stretched over the other operand, anything else raises. *)
Definition broadcast {A B C} (f : A -> B -> result C) (xs : list A) (ys : list B)
  : result (list C) :=
  if (length xs =? length ys)%nat then zip_with f xs ys
  else match xs, ys with
       | [x], _ => map_r (f x) ys
       | _, [y] => map_r (fun x => f x y) xs
       | _, _ => Raise RuntimeError
       end.

(** A binary elementwise operation between two tensors of the same rank. *)
Fixpoint tbin {A B C} (r : nat) (op : A -> B -> C)
  : tensor A r -> tensor B r -> result (tensor C r) :=
  match r return tensor A r -> tensor B r -> result (tensor C r) with
  | O => fun a b => Ok (op a b)
  | S r' => broadcast (tbin r' op)
  end.

(** A negative index counts from the end. *)
Definition wrap_index (n i : Z) : Z := if (i <? 0)%Z then (i + n)%Z else i.

(** [v[i]] for an integer [i]. *)
Definition getitem {A} (v : list A) (i : Z) : result A :=
  let n := Z.of_nat (length v) in
  let j := wrap_index n i in
  if ((0 <=? j) && (j <? n))%Z
  then match nth_error v (Z.to_nat j) with
       | Some a => Ok a
       | None => Raise IndexError
       end
  else Raise IndexError.

(** [v[t]] for an integer tensor [t] of rank one. *)
Definition index {A} (v : tensor A 1) (t : tensor Z 1) : result (tensor A 1) :=
  map_r (getitem v) t.

(** [v[:, None, None, None]] *)
Definition unsqueeze3 {A} (v : tensor A 1) : tensor A 4 :=
  map (fun c => [[[c]]]) v.

(** Python's [range(lo, hi)] and [reversed]. *)
Definition range (lo hi : Z) : list Z :=
  map (fun k => (lo + Z.of_nat k)%Z) (seq 0 (Z.to_nat (hi - lo))).

Definition reversed {A} (l : list A) : list A := rev l.

(** Conversion of a real to an integer type rounds toward zero. *)
Definition trunc (v : R) : Z :=
  if Rle_dec 0 v then Int_part v else (- Int_part (- v))%Z.

(** [.long()] *)
Definition long (v : R) : Z := trunc v.

(** [.type(torch.uint8)] *)
Definition to_uint8 (v : R) : Z := (trunc v mod 256)%Z.

(** [torch.ones(n)] *)
Definition ones (n : nat) : tensor R 1 := repeat 1%R n.

(** [torch.zeros_like(x)] *)
Definition zeros_like (r : nat) (x : tensor R r) : tensor R r :=
  tmap r (fun _ => 0%R) x.

(** [x.clamp(lo, hi)] *)
Definition clamp (r : nat) (lo hi : R) (x : tensor R r) : tensor R r :=
  tmap r (fun v => Rmin (Rmax v lo) hi) x.

(** [torch.linspace(start, end, steps)]: a negative count is rejected, a
    count of one yields [start] alone, and otherwise the first half of the
    points is counted up from [start] and the second half down from [end]. *)
Definition linspace (start stop : R) (steps : Z) : result (tensor R 1) :=
  if (steps <? 0)%Z then Raise RuntimeError
  else if (steps =? 1)%Z then Ok [start]
  else
    let step := ((stop - start) / IZR (steps - 1))%R in
    let halfway := (steps / 2)%Z in
    Ok (map (fun idx =>
               if (idx <? halfway)%Z
               then (start + step * IZR idx)%R
               else (stop - step * IZR (steps - idx - 1))%R)
            (range 0 steps)).

(** [torch.cumprod(v, dim=0)], as the exact running product.  The code's
    float32 product is this value rounded at every factor: it stays in
    [0, 1] and never rises when the factors are in [0, 1], but it can
    underflow to 0 where the exact product is positive, so positivity and
    strict decrease are facts of exact arithmetic only. *)
Fixpoint cumprod_from (acc : R) (v : list R) : list R :=
  match v with
  | [] => []
  | a :: v' => (acc * a)%R :: cumprod_from (acc * a)%R v'
  end.

Definition cumprod (v : tensor R 1) : tensor R 1 :=
  match v with
  | [] => []
  | a :: v' => a :: cumprod_from a v'
  end.

(* ================================================================= *)
(** ** The world: predictor mode, gradient mode, random generator *)

(** The random generator, as the two sequences of values it will hand out:
    standard-normal draws and raw integers (which [randint] reduces into
    its range). *)
Record Generator : Type := {
  normal : nat -> R;
  raw : nat -> Z
}.

Record World : Type := {
  training : bool;      (* [model.training] *)
  grad_enabled : bool;  (* torch's gradient mode *)
  gen : Generator
}.

Definition M (A : Type) : Type := World -> result A * World.

Definition ret {A} (a : A) : M A := fun w => (Ok a, w).

Definition mbind {A B} (m : M A) (k : A -> M B) : M B :=
  fun w =>
    match m w with
    | (Ok a, w') => k a w'
    | (Raise e, w') => (Raise e, w')
    end.

Definition lift {A} (v : result A) : M A := fun w => (v, w).

Declare Scope M_scope.
Delimit Scope M_scope with M.
Bind Scope M_scope with M.
Notation "x <- e ;; k" := (mbind e (fun x => k))
  (at level 61, e at next level, right associativity) : M_scope.
Notation "e ;;; k" := (mbind e (fun _ => k))
  (at level 61, right associativity) : M_scope.

Definition draw_normal (g : Generator) : R * Generator :=
  (normal g 0, {| normal := fun k => normal g (S k); raw := raw g |}).

Definition draw_raw (g : Generator) : Z * Generator :=
  (raw g 0, {| normal := normal g; raw := fun k => raw g (S k) |}).

(** [n] successive draws. *)
Fixpoint draws {A S} (n : nat) (f : S -> A * S) (s : S) : list A * S :=
  match n with
  | O => ([], s)
  | S n' => let (a, s1) := f s in
            let (l, s2) := draws n' f s1 in
            (a :: l, s2)
  end.

(** One draw per element of a list. *)
Fixpoint draws_like {A B S} (f : A -> S -> B * S) (xs : list A) (s : S) : list B * S :=
  match xs with
  | [] => ([], s)
  | x :: xs' => let (b, s1) := f x s in
                let (l, s2) := draws_like f xs' s1 in
                (b :: l, s2)
  end.

Fixpoint randn_gen (sh : list nat) : Generator -> tensor R (length sh) * Generator :=
  match sh return Generator -> tensor R (length sh) * Generator with
  | [] => draw_normal
  | d :: sh' => draws d (randn_gen sh')
  end.

Fixpoint randn_like_gen (r : nat) : tensor R r -> Generator -> tensor R r * Generator :=
  match r return tensor R r -> Generator -> tensor R r * Generator with
  | O => fun _ => draw_normal
  | S r' => draws_like (randn_like_gen r')
  end.

Definition with_gen {A} (f : Generator -> A * Generator) : M A :=
  fun w =>
    let (a, g) := f (gen w) in
    (Ok a, {| training := training w; grad_enabled := grad_enabled w; gen := g |}).

(** [torch.randn(sh)] *)
Definition randn (sh : list nat) : M (tensor R (length sh)) :=
  with_gen (randn_gen sh).

(** [torch.randn_like(x)] *)
Definition randn_like (r : nat) (x : tensor R r) : M (tensor R r) :=
  with_gen (randn_like_gen r x).

(** The reduction of a raw integer into [low, high). *)
Definition uniform_int_from_to (low high : Z) (v : Z) : Z :=
  (v mod (high - low) + low)%Z.

(** [torch.randint(low, high, size=(n,))]: integers of [low, high), [high]
    excluded, one raw draw each; an empty range is rejected. *)
Definition randint (low high : Z) (n : nat) : M (tensor Z 1) :=
  fun w =>
    if (low <? high)%Z
    then with_gen (fun g =>
           let (vs, g') := draws n draw_raw g in
           (map (uniform_int_from_to low high) vs, g')) w
    else (Raise RuntimeError, w).

(** The predictor: [forward] is the model's forward pass, which may depend
    on the mode the model is in and may raise. *)
Record Predictor : Type := {
  forward : bool -> tensor R 4 -> tensor Z 1 -> result (tensor R 4)
}.

(** [model(x, t)] *)
Definition call (model : Predictor) (x : tensor R 4) (t : tensor Z 1) : M (tensor R 4) :=
  fun w => (forward model (training w) x t, w).

(** [model.eval()] and [model.train()] *)
Definition set_training (b : bool) : M unit :=
  fun w => (Ok tt, {| training := b; grad_enabled := grad_enabled w; gen := gen w |}).

Definition eval : M unit := set_training false.
Definition train : M unit := set_training true.

(** [with torch.no_grad(): body]: the gradient mode is switched off for the
    body and put back when the block is left, by return or by exception. *)
Definition no_grad {A} (body : M A) : M A :=
  fun w =>
    let prev := grad_enabled w in
    let (r, w') := body {| training := training w; grad_enabled := false; gen := gen w |} in
    (r, {| training := training w'; grad_enabled := prev; gen := gen w' |}).

(** [for i in l: x = body(i, x)] *)
Fixpoint for_each {A S} (l : list A) (body : A -> S -> M S) (x : S) : M S :=
  match l with
  | [] => ret x
  | i :: l' => (x' <- body i x ;; for_each l' body x')%M
  end.

(* ================================================================= *)
(** ** class Diffusion *)

Record Diffusion : Type := {
  noise_steps : Z;
  beta_start : R;
  beta_end : R;
  img_size : nat;
  beta : tensor R 1;
  alpha : tensor R 1;
  alpha_hat : tensor R 1
}.

(** [prepare_noise_schedule] reads the three fields that [__init__] has set
    before it calls it. *)
Definition prepare_noise_schedule (noise_steps : Z) (beta_start beta_end : R)
  : result (tensor R 1) :=
  linspace beta_start beta_end noise_steps.

(** [Diffusion(noise_steps, beta_start, beta_end, img_size)].  The device
    and the optional printing of the parameters are left out. *)
Definition __init__ (noise_steps : Z) (beta_start beta_end : R) (img_size : nat)
  : result Diffusion :=
  (b <- prepare_noise_schedule noise_steps beta_start beta_end ;;
   let a := tmap 1 (fun v => 1 - v)%R b in
   Ok {| noise_steps := noise_steps;
         beta_start := beta_start;
         beta_end := beta_end;
         img_size := img_size;
         beta := b;
         alpha := a;
         alpha_hat := cumprod a |})%res.

Definition noise_images (self : Diffusion) (x_0 : tensor R 4) (t : tensor Z 1)
  : M (tensor R 4 * tensor R 4) :=
  (ah <- lift (index (alpha_hat self) t) ;;
   let sqrt_alpha_hat := unsqueeze3 (tmap 1 sqrt ah) in
   ah' <- lift (index (alpha_hat self) t) ;;
   let sqrt_one_minus_alpha_hat :=
     unsqueeze3 (tmap 1 sqrt (tmap 1 (fun v => 1 - v)%R ah')) in
   epsilon <- randn_like 4 x_0 ;;
   signal <- lift (tbin 4 Rmult sqrt_alpha_hat x_0) ;;
   noise <- lift (tbin 4 Rmult sqrt_one_minus_alpha_hat epsilon) ;;
   x_t <- lift (tbin 4 Rplus signal noise) ;;
   ret (x_t, epsilon))%M.

Definition sample_timestep (self : Diffusion) (n : nat) : M (tensor Z 1) :=
  randint 1 (noise_steps self) n.

(** The right-hand side of the assignment to [x] in the loop of [sample]:
    [1 / torch.sqrt(alpha) * (x - ((1 - alpha) / torch.sqrt(1 - alpha_hat))
     * predicted_noise) + torch.sqrt(beta) * noise]. *)
Definition update (x predicted_noise alpha alpha_hat beta noise : tensor R 4)
  : result (tensor R 4) :=
  (let inv_sqrt_alpha := tmap 4 (fun v => 1 / v)%R (tmap 4 sqrt alpha) in
   coef <- tbin 4 Rdiv (tmap 4 (fun v => 1 - v)%R alpha)
                       (tmap 4 sqrt (tmap 4 (fun v => 1 - v)%R alpha_hat)) ;;
   scaled <- tbin 4 Rmult coef predicted_noise ;;
   diff <- tbin 4 Rminus x scaled ;;
   mean <- tbin 4 Rmult inv_sqrt_alpha diff ;;
   spread <- tbin 4 Rmult (tmap 4 sqrt beta) noise ;;
   tbin 4 Rplus mean spread)%res.

(** The body of the loop of [sample], for the loop variable [i]. *)
Definition sample_step (self : Diffusion) (model : Predictor) (n : nat)
  (i : Z) (x : tensor R 4) : M (tensor R 4) :=
  (let t := tmap 1 long (tmap 1 (fun v => v * IZR i)%R (ones n)) in
   predicted_noise <- call model x t ;;
   a <- lift (index (alpha self) t) ;;
   let alpha := unsqueeze3 a in
   ah <- lift (index (alpha_hat self) t) ;;
   let alpha_hat := unsqueeze3 ah in
   b <- lift (index (beta self) t) ;;
   let beta := unsqueeze3 b in
   noise <- (if (1 <? n)%nat then randn_like 4 x else ret (zeros_like 4 x)) ;;
   lift (update x predicted_noise alpha alpha_hat beta noise))%M.

(** The timesteps the loop of [sample] visits, in order. *)
Definition sample_timesteps (self : Diffusion) : list Z :=
  reversed (range 1 (noise_steps self)).

(** The last two statements before [return x]. *)
Definition postprocess (x : tensor R 4) : tensor Z 4 :=
  let x := tmap 4 (fun v => (v + 1) / 2)%R (clamp 4 (-1) 1 x) in
  tmap 4 to_uint8 (tmap 4 (fun v => v * 255)%R x).

(** [sample(model, n)]; the log line and the progress bar are left out. *)
Definition sample (self : Diffusion) (model : Predictor) (n : nat) : M (tensor Z 4) :=
  (eval ;;;
   x <- no_grad (
          x <- randn [n; 3%nat; img_size self; img_size self] ;;
          for_each (sample_timesteps self) (sample_step self model n) x) ;;
   train ;;;
   ret (postprocess x))%M.

(** The number of entries of a tensor of shape [sh], and its entries in
    row-major order. *)
Definition numel (sh : list nat) : nat := fold_right Nat.mul 1%nat sh.

Fixpoint flatten {A} (r : nat) : tensor A r -> list A :=
  match r return tensor A r -> list A with
  | O => fun a => [a]
  | S r' => fun x => flat_map (flatten r') x
  end.

(* ================================================================= *)
(** ** The training loop, as far as the loss of a batch *)

(** [torch.mean] of the entries of a tensor, given in row-major order. *)
Definition mean (l : list R) : R :=
  (fold_right Rplus 0 l / INR (length l))%R.

(** [nn.MSELoss()(input, target)]: the mean of the squared differences,
    the two operands being broadcast against each other. *)
Definition mse (input target : tensor R 4) : result R :=
  (sq <- tbin 4 (fun a b => (a - b) * (a - b))%R input target ;;
   Ok (mean (flatten 4 sq)))%res.

(** The body of the inner loop of [train] for the batch [images], up to the
    loss:
    [t = diffusion.sample_timestep(images.shape[0])],
    [x_t, noise = diffusion.noise_images(images, t)],
    [predicted_noise = model(x_t, t)],
    [loss = mse(noise, predicted_noise)].
    The backward pass, the optimizer step and the logging that follow are
    left out. *)
Definition train_batch_loss (diffusion : Diffusion) (model : Predictor)
  (images : tensor R 4) : M R :=
  (t <- sample_timestep diffusion (length (images : list (tensor R 3))) ;;
   r <- noise_images diffusion images t ;;
   let (x_t, noise) := (r : tensor R 4 * tensor R 4) in
   predicted_noise <- call model x_t t ;;
   lift (mse noise predicted_noise))%M.

(* ================================================================= *)
(** ** Vocabulary of the statements *)

(** The product of the entries of a list: [product(alpha[0..t])] is
    [prod (firstn (S t) alpha)]. *)
Definition prod (l : list R) : R := fold_right Rmult 1%R l.

(** [v[i]] for an index known to be in range. *)
Definition at_ (v : tensor R 1) (i : nat) : R := nth i v 0%R.

(** Broadcasting, as torch documents it: two sizes are compatible when they
    are equal or one of them is one; the result has the size that is not
    one; an operand of size one is read at position zero. *)
Definition compat (a b : nat) : Prop := a = b \/ a = 1%nat \/ b = 1%nat.

Definition bdim (a b : nat) : nat := if (a =? 1)%nat then b else a.

Definition bidx (a i : nat) : nat := if (a =? 1)%nat then 0%nat else i.

Fixpoint bshape (shx shy : list nat) : list nat :=
  match shx, shy with
  | a :: shx', b :: shy' => bdim a b :: bshape shx' shy'
  | _, _ => []
  end.

Fixpoint bindex (sh idx : list nat) : list nat :=
  match sh, idx with
  | a :: sh', i :: idx' => bidx a i :: bindex sh' idx'
  | _, _ => []
  end.

(** [idx] addresses an entry of a tensor of shape [sh]. *)
Fixpoint in_bounds (sh idx : list nat) : Prop :=
  match sh, idx with
  | [], [] => True
  | a :: sh', i :: idx' => (i < a)%nat /\ in_bounds sh' idx'
  | _, _ => False
  end.

(** [x] has shape [sh] and its entry at every position [idx] is [g idx]. *)
Definition is_tensor (r : nat) (sh : list nat) (x : tensor R r)
  (g : list nat -> R) : Prop :=
  has_shape r sh x = true /\
  forall idx, in_bounds sh idx -> tget r 0%R idx x = g idx.

(** [x[i, c, h, w]] *)
Definition entry (x : tensor R 4) (i c h w : nat) : R :=
  tget 4 0%R [i; c; h; w] x.

(** The value of [torch.randn_like(x) if n > 1 else torch.zeros_like(x)] in
    the world [w], and the world in which this draw leaves the generator. *)
Definition step_noise (n : nat) (x : tensor R 4) (w : World) : tensor R 4 :=
  if (1 <? n)%nat then fst (randn_like_gen 4 x (gen w)) else zeros_like 4 x.

Definition step_world (n : nat) (x : tensor R 4) (w : World) : World :=
  if (1 <? n)%nat
  then {| training := training w; grad_enabled := grad_enabled w;
          gen := snd (randn_like_gen 4 x (gen w)) |}
  else w.

(** Two predictors: one that always predicts the zero array, one whose
    forward pass always raises. *)
Definition zero_predictor : Predictor :=
  {| forward := fun _ x _ => Ok (zeros_like 4 x) |}.

Definition failing_predictor : Predictor :=
  {| forward := fun _ _ _ => Raise (ModelError 0) |}.

(** A predictor that returns a given noise, whatever it is asked. *)
Definition oracle (epsilon : tensor R 4) : Predictor :=
  {| forward := fun _ _ _ => Ok epsilon |}.

(** A generator and a world to run the methods on. *)
Definition gen0 : Generator :=
  {| normal := fun _ => 0%R; raw := fun k => Z.of_nat k |}.

Definition world0 : World :=
  {| training := true; grad_enabled := true; gen := gen0 |}.

(** The same world, with the predictor in evaluation mode. *)
Definition world_eval : World :=
  {| training := false; grad_enabled := true; gen := gen0 |}.

(* ================================================================= *)
(** ** Lists and ranges *)

(** Evaluation of the model on concrete inputs, real arithmetic left alone. *)
Ltac evaluate :=
  cbv -[sqrt Rdiv Rminus IZR Rplus Rmult Rinv Ropp Rmin Rmax Rle_dec Int_part].

Open Scope R_scope.

Lemma range_length (lo hi : Z) : length (range lo hi) = Z.to_nat (hi - lo).
Proof. unfold range. now rewrite length_map, length_seq. Qed.

Lemma range_nth_error (lo hi : Z) (k : nat) :
  (k < Z.to_nat (hi - lo))%nat ->
  nth_error (range lo hi) k = Some (lo + Z.of_nat k)%Z.
Proof.
  intros Hk. unfold range.
  rewrite nth_error_map, nth_error_nth' with (d := O) by now rewrite length_seq.
  now rewrite seq_nth.
Qed.

Lemma nth_map_in {A B} (f : A -> B) (l : list A) (i : nat) (da : A) (db : B) :
  (i < length l)%nat -> nth i (map f l) db = f (nth i l da).
Proof.
  intros Hi. rewrite nth_indep with (d' := f da) by now rewrite length_map.
  apply map_nth.
Qed.

Lemma range_nth (lo hi : Z) (k : nat) (d : Z) :
  (k < Z.to_nat (hi - lo))%nat -> nth k (range lo hi) d = (lo + Z.of_nat k)%Z.
Proof.
  intros Hk. apply nth_error_nth. now apply range_nth_error.
Qed.

(* ================================================================= *)
(** ** The schedule *)

Section Linspace.

Variables (start stop : R) (steps : Z).
Hypothesis Hsteps : (2 <= steps)%Z.

Let step : R := (stop - start) / IZR (steps - 1).

Lemma linspace_many :
  linspace start stop steps =
  Ok (map (fun idx =>
             if (idx <? steps / 2)%Z
             then start + step * IZR idx
             else stop - step * IZR (steps - idx - 1))
          (range 0 steps)).
Proof.
  unfold linspace.
  destruct (steps <? 0)%Z eqn:E1; [apply Z.ltb_lt in E1; lia|].
  destruct (steps =? 1)%Z eqn:E2; [apply Z.eqb_eq in E2; lia|].
  reflexivity.
Qed.

Lemma linspace_point (idx : Z) :
  (if (idx <? steps / 2)%Z
   then start + step * IZR idx
   else stop - step * IZR (steps - idx - 1)) = start + IZR idx * step.
Proof.
  assert (Hne : IZR (steps - 1) <> 0) by (apply not_0_IZR; lia).
  destruct (idx <? steps / 2)%Z; [ring|].
  replace (steps - idx - 1)%Z with ((steps - 1) - idx)%Z by lia.
  rewrite minus_IZR. unfold step. field. exact Hne.
Qed.

Lemma linspace_spec :
  exists l, linspace start stop steps = Ok l /\
    length l = Z.to_nat steps /\
    forall i, (i < Z.to_nat steps)%nat -> at_ l i = start + INR i * step.
Proof.
  eexists. split; [apply linspace_many|]. split.
  - now rewrite length_map, range_length, Z.sub_0_r.
  - intros i Hi. unfold at_.
    rewrite nth_map_in with (da := 0%Z) by now rewrite range_length, Z.sub_0_r.
    rewrite range_nth by now rewrite Z.sub_0_r.
    rewrite linspace_point. simpl (0 + _)%Z. now rewrite <- INR_IZR_INZ.
Qed.

End Linspace.

Lemma linspace_one (start stop : R) : linspace start stop 1 = Ok [start].
Proof. reflexivity. Qed.

Lemma linspace_negative (start stop : R) (steps : Z) :
  (steps < 0)%Z -> linspace start stop steps = Raise RuntimeError.
Proof.
  intros H. unfold linspace. apply Z.ltb_lt in H. now rewrite H.
Qed.

Lemma linspace_length (start stop : R) (steps : Z) :
  (0 <= steps)%Z ->
  exists l, linspace start stop steps = Ok l /\ length l = Z.to_nat steps.
Proof.
  intros H. unfold linspace.
  destruct (steps <? 0)%Z eqn:E1; [apply Z.ltb_lt in E1; lia|].
  destruct (steps =? 1)%Z eqn:E2.
  - apply Z.eqb_eq in E2. subst. now exists [start].
  - eexists. split; [reflexivity|].
    now rewrite length_map, range_length, Z.sub_0_r.
Qed.

Lemma prod_firstn_succ (v : list R) (i : nat) :
  (i < length v)%nat -> prod (firstn (S i) v) = prod (firstn i v) * at_ v i.
Proof.
  revert i. induction v as [|a v IH]; intros i Hi; simpl in Hi; [lia|].
  destruct i as [|i].
  - unfold at_. simpl. ring.
  - change (prod (firstn (S (S i)) (a :: v))) with (a * prod (firstn (S i) v)).
    rewrite IH by lia. unfold at_. simpl. ring.
Qed.

Lemma cumprod_from_length (acc : R) (v : list R) :
  length (cumprod_from acc v) = length v.
Proof. revert acc. induction v; intros; simpl; auto. Qed.

Lemma cumprod_length (v : list R) : length (cumprod v) = length v.
Proof. destruct v; simpl; [|rewrite cumprod_from_length]; reflexivity. Qed.

Lemma cumprod_from_nth (v : list R) (acc : R) (i : nat) :
  (i < length v)%nat ->
  at_ (cumprod_from acc v) i = acc * prod (firstn (S i) v).
Proof.
  revert acc i. induction v as [|a v IH]; intros acc i Hi; simpl in Hi; [lia|].
  destruct i as [|i].
  - unfold at_. simpl. ring.
  - change (at_ (cumprod_from acc (a :: v)) (S i))
      with (at_ (cumprod_from (acc * a) v) i).
    rewrite IH by lia.
    change (prod (firstn (S (S i)) (a :: v))) with (a * prod (firstn (S i) v)).
    ring.
Qed.

Lemma cumprod_nth (v : list R) (i : nat) :
  (i < length v)%nat -> at_ (cumprod v) i = prod (firstn (S i) v).
Proof.
  destruct v as [|a v]; simpl; intros Hi; [lia|].
  destruct i as [|i].
  - unfold at_, prod. simpl. ring.
  - change (at_ (a :: cumprod_from a v) (S i)) with (at_ (cumprod_from a v) i).
    rewrite cumprod_from_nth by lia. reflexivity.
Qed.

Lemma cumprod_succ (v : list R) (i : nat) :
  (S i < length v)%nat ->
  at_ (cumprod v) (S i) = at_ (cumprod v) i * at_ v (S i).
Proof.
  intros Hi. rewrite !cumprod_nth by lia. now apply prod_firstn_succ.
Qed.

Lemma cumprod_head (v : list R) :
  (0 < length v)%nat -> at_ (cumprod v) 0 = at_ v 0.
Proof. destruct v; simpl; [lia|reflexivity]. Qed.

(** With every factor in (0,1], the running product stays in (0,1] and
    never grows. *)
Section CumprodBounds.

Variable v : list R.
Hypothesis Hv : forall i, (i < length v)%nat -> 0 < at_ v i <= 1.

Lemma cumprod_range (i : nat) :
  (i < length v)%nat -> 0 < at_ (cumprod v) i <= 1.
Proof.
  induction i as [|i IH]; intros Hi.
  - rewrite cumprod_head by lia. now apply Hv.
  - rewrite cumprod_succ by lia.
    specialize (IH ltac:(lia)). specialize (Hv _ Hi). nra.
Qed.

Lemma cumprod_step_le (i : nat) :
  (S i < length v)%nat -> at_ (cumprod v) (S i) <= at_ (cumprod v) i.
Proof.
  intros Hi. rewrite cumprod_succ by lia.
  pose proof (cumprod_range i ltac:(lia)). specialize (Hv _ Hi). nra.
Qed.

Lemma cumprod_non_increasing (i j : nat) :
  (i <= j)%nat -> (j < length v)%nat ->
  at_ (cumprod v) j <= at_ (cumprod v) i.
Proof.
  induction 1 as [|j Hij IH]; intros Hj; [lra|].
  apply Rle_trans with (at_ (cumprod v) j); [now apply cumprod_step_le|].
  apply IH. lia.
Qed.

End CumprodBounds.

(** What [__init__] builds, when it returns. *)
Lemma init_inv (T : Z) (bs be : R) (s : nat) (d : Diffusion) :
  __init__ T bs be s = Ok d ->
  linspace bs be T = Ok (beta d) /\
  noise_steps d = T /\ beta_start d = bs /\ beta_end d = be /\ img_size d = s /\
  alpha d = map (fun v => 1 - v) (beta d) /\
  alpha_hat d = cumprod (alpha d).
Proof.
  unfold __init__, prepare_noise_schedule.
  destruct (linspace bs be T) as [b|e]; simpl; intros H; [|discriminate].
  injection H as <-. simpl. repeat split.
Qed.

Lemma init_lengths (T : Z) (bs be : R) (s : nat) (d : Diffusion) :
  __init__ T bs be s = Ok d ->
  length (beta d) = Z.to_nat T /\
  length (alpha d) = Z.to_nat T /\
  length (alpha_hat d) = Z.to_nat T.
Proof.
  intros H. destruct (init_inv _ _ _ _ _ H) as (Hl & HT & _ & _ & _ & Ha & Hah).
  assert (HT0 : (0 <= T)%Z).
  { destruct (Z.ltb_spec T 0) as [Hneg|]; [|assumption].
    rewrite linspace_negative in Hl by assumption. discriminate. }
  destruct (linspace_length bs be T HT0) as (l & Hl' & Hlen).
  rewrite Hl in Hl'. injection Hl' as <-.
  rewrite Hah, cumprod_length, Ha, length_map. auto.
Qed.

Lemma init_alpha (T : Z) (bs be : R) (s : nat) (d : Diffusion) (i : nat) :
  __init__ T bs be s = Ok d -> (i < Z.to_nat T)%nat ->
  at_ (alpha d) i = 1 - at_ (beta d) i.
Proof.
  intros H Hi. destruct (init_lengths _ _ _ _ _ H) as (Hb & _ & _).
  destruct (init_inv _ _ _ _ _ H) as (_ & _ & _ & _ & _ & Ha & _).
  rewrite Ha. unfold at_. apply nth_map_in. lia.
Qed.

(** The points of the schedule, for parameters in the documented domain. *)
Section ValidSchedule.

Variables (T : Z) (bs be : R) (s : nat) (d : Diffusion).
Hypothesis HT : (0 < T)%Z.
Hypothesis Hbs : 0 < bs.
Hypothesis Hbe : bs < be.
Hypothesis Hbe1 : be < 1.
Hypothesis Hd : __init__ T bs be s = Ok d.

Lemma valid_beta_single : T = 1%Z -> beta d = [bs].
Proof using All.
  intros ->. destruct (init_inv _ _ _ _ _ Hd) as (Hl & _).
  rewrite linspace_one in Hl. now injection Hl as <-.
Qed.

Lemma valid_beta_point (i : nat) :
  (2 <= T)%Z -> (i < Z.to_nat T)%nat ->
  at_ (beta d) i = bs + INR i * ((be - bs) / IZR (T - 1)).
Proof using All.
  intros H2 Hi. destruct (init_inv _ _ _ _ _ Hd) as (Hl & _).
  destruct (linspace_spec bs be T H2) as (l & Hl' & _ & Hpt).
  rewrite Hl in Hl'. injection Hl' as <-. now apply Hpt.
Qed.

Lemma valid_beta_range (i : nat) :
  (i < Z.to_nat T)%nat -> bs <= at_ (beta d) i <= be.
Proof using All.
  intros Hi. destruct (Z.eq_dec T 1) as [H1|H1].
  - rewrite (valid_beta_single H1). subst T.
    assert (i = 0%nat) as -> by lia. unfold at_. simpl. lra.
  - assert (H2 : (2 <= T)%Z) by lia.
    rewrite (valid_beta_point i H2 Hi).
    assert (Hpos : 0 < IZR (T - 1)) by (apply IZR_lt; lia).
    assert (Hi0 : 0 <= INR i) by apply pos_INR.
    assert (Hi1 : INR i <= IZR (T - 1)).
    { rewrite INR_IZR_INZ. apply IZR_le. lia. }
    set (n := IZR (T - 1)) in *. set (k := INR i) in *.
    replace (k * ((be - bs) / n)) with ((be - bs) * (k / n)) by (field; lra).
    assert (0 <= k / n <= 1).
    { split.
      - apply Rmult_le_pos; [assumption|]. left. now apply Rinv_0_lt_compat.
      - apply Rmult_le_reg_r with n; [assumption|].
        replace (k / n * n) with k by (field; lra). lra. }
    nra.
Qed.

Lemma valid_alpha_range (i : nat) :
  (i < Z.to_nat T)%nat -> 0 < at_ (alpha d) i < 1.
Proof using All.
  intros Hi. rewrite (init_alpha _ _ _ _ _ _ Hd Hi).
  pose proof (valid_beta_range i Hi). lra.
Qed.

Lemma valid_alpha_hat_range (i : nat) :
  (i < Z.to_nat T)%nat -> 0 < at_ (alpha_hat d) i < 1.
Proof using All.
  intros Hi. destruct (init_lengths _ _ _ _ _ Hd) as (_ & Hla & _).
  destruct (init_inv _ _ _ _ _ Hd) as (_ & _ & _ & _ & _ & _ & Hah).
  assert (Hv : forall k, (k < length (alpha d))%nat -> 0 < at_ (alpha d) k <= 1).
  { intros k Hk. rewrite Hla in Hk. pose proof (valid_alpha_range k Hk). lra. }
  rewrite Hah. split.
  - apply cumprod_range; [assumption|lia].
  - apply Rle_lt_trans with (at_ (cumprod (alpha d)) 0).
    + apply cumprod_non_increasing; [assumption|lia|lia].
    + rewrite cumprod_head by lia. apply valid_alpha_range. lia.
Qed.

End ValidSchedule.

(** C2 (as amended).  For [noise_steps = T > 0] and
    [0 < beta_start < beta_end < 1] the constructor returns a schedule of [T]
    entries: [beta] starts at [beta_start] and rises by the constant
    increment [(beta_end - beta_start) / (T - 1)], so that it ends at
    [beta_end] when [T >= 2] (for [T = 1] it is [beta_start] alone);
    [alpha[t] = 1 - beta[t]]; [alpha_hat[t]] is the product of
    [alpha[0..t]], with [alpha_hat[0] = alpha[0]], non-increasing and in
    [0, 1].  The lower bound is not strict: 0 is the bound that survives
    the rounding of the float32 product. *)
Theorem schedule_construction (T : Z) (bs be : R) (s : nat) :
  (0 < T)%Z -> 0 < bs -> bs < be -> be < 1 ->
  exists d, __init__ T bs be s = Ok d /\
    length (beta d) = Z.to_nat T /\
    length (alpha d) = Z.to_nat T /\
    length (alpha_hat d) = Z.to_nat T /\
    at_ (beta d) 0 = bs /\
    ((2 <= T)%Z -> at_ (beta d) (Z.to_nat T - 1) = be) /\
    (T = 1%Z -> beta d = [bs]) /\
    (forall i, (S i < Z.to_nat T)%nat ->
       at_ (beta d) (S i) - at_ (beta d) i = (be - bs) / IZR (T - 1)) /\
    (forall i, (i < Z.to_nat T)%nat -> at_ (alpha d) i = 1 - at_ (beta d) i) /\
    (forall i, (i < Z.to_nat T)%nat ->
       at_ (alpha_hat d) i = prod (firstn (S i) (alpha d))) /\
    at_ (alpha_hat d) 0 = at_ (alpha d) 0 /\
    (forall i j, (i <= j)%nat -> (j < Z.to_nat T)%nat ->
       at_ (alpha_hat d) j <= at_ (alpha_hat d) i) /\
    (forall i, (i < Z.to_nat T)%nat -> 0 <= at_ (alpha_hat d) i <= 1).
Proof.
  intros HT Hbs Hbe Hbe1.
  destruct (linspace_length bs be T ltac:(lia)) as (b & Hb & _).
  assert (Hd : exists d, __init__ T bs be s = Ok d).
  { unfold __init__, prepare_noise_schedule. rewrite Hb. simpl. eauto. }
  destruct Hd as (d & Hd). exists d. split; [exact Hd|].
  destruct (init_lengths _ _ _ _ _ Hd) as (Hlb & Hla & Hlh).
  destruct (init_inv _ _ _ _ _ Hd) as (_ & _ & _ & _ & _ & _ & Hah).
  assert (Hv : forall k, (k < length (alpha d))%nat -> 0 < at_ (alpha d) k <= 1).
  { intros k Hk. rewrite Hla in Hk.
    pose proof (valid_alpha_range T bs be s d HT Hbs Hbe Hbe1 Hd k Hk). lra. }
  repeat match goal with |- _ /\ _ => split end; try assumption.
  - destruct (Z.eq_dec T 1) as [H1|H1].
    + now rewrite (valid_beta_single T bs be s d HT Hbs Hbe Hbe1 Hd H1).
    + rewrite (valid_beta_point T bs be s d HT Hbs Hbe Hbe1 Hd 0) by lia. simpl. ring.
  - intros H2. rewrite (valid_beta_point T bs be s d HT Hbs Hbe Hbe1 Hd _ H2) by lia.
    assert (Hne : IZR (T - 1) <> 0) by (apply not_0_IZR; lia).
    replace (INR (Z.to_nat T - 1)) with (IZR (T - 1)).
    + field. exact Hne.
    + rewrite INR_IZR_INZ. f_equal. lia.
  - now apply (valid_beta_single T bs be s d HT Hbs Hbe Hbe1 Hd).
  - intros i Hi. rewrite !(valid_beta_point T bs be s d HT Hbs Hbe Hbe1 Hd) by lia.
    rewrite S_INR. ring.
  - intros i Hi. now apply (init_alpha _ _ _ _ _ _ Hd).
  - intros i Hi. rewrite Hah. apply cumprod_nth. lia.
  - rewrite Hah. apply cumprod_head. lia.
  - intros i j Hij Hj. rewrite Hah. apply cumprod_non_increasing; [assumption|lia|lia].
  - intros i Hi. rewrite Hah.
    pose proof (cumprod_range (alpha d) Hv i ltac:(lia)). lra.
Qed.

Lemma schedule_construction_witness :
  exists d, __init__ 10 (1/10) (1/5) 64 = Ok d /\ length (beta d) = 10%nat.
Proof.
  destruct (schedule_construction 10 (1/10) (1/5) 64) as (d & Hd & Hl & _);
    [lia | lra | lra | lra |].
  exists d. split; [exact Hd | exact Hl].
Defined.

Lemma pow_le_low (q : R) (m n : nat) :
  0 <= q <= 1 -> (m <= n)%nat -> q ^ n <= q ^ m.
Proof.
  intros Hq Hmn. induction Hmn as [|n Hmn IH]; [lra|].
  simpl. assert (0 <= q ^ n) by (apply pow_le; lra). nra.
Qed.

Lemma tenth_pow_below_float32 : (1/10) ^ 46 < / 2 ^ 150.
Proof.
  replace (1/10) with (/ 10) by lra.
  rewrite pow_inv, !pow_IZR.
  apply Rinv_lt_contravar.
  - apply Rmult_lt_0_compat; apply IZR_lt; reflexivity.
  - apply IZR_lt. reflexivity.
Qed.

(** With every factor in (0, q], [q <= 1], the running product decays at
    least geometrically. *)
Lemma cumprod_geometric (v : list R) (q : R) :
  q <= 1 ->
  (forall i, (i < length v)%nat -> 0 < at_ v i <= q) ->
  forall i, (i < length v)%nat -> at_ (cumprod v) i <= q ^ S i.
Proof.
  intros Hq Hv.
  assert (Hv1 : forall i, (i < length v)%nat -> 0 < at_ v i <= 1).
  { intros i Hi. specialize (Hv i Hi). lra. }
  induction i as [|i IH]; intros Hi.
  - rewrite cumprod_head by lia. specialize (Hv 0%nat Hi). simpl. lra.
  - rewrite cumprod_succ by lia.
    specialize (IH ltac:(lia)).
    pose proof (cumprod_range v Hv1 i ltac:(lia)) as Hr.
    specialize (Hv (S i) Hi).
    change (q ^ S (S i)) with (q * q ^ S i). nra.
Qed.

(** C2, the claim as written fails.  For a schedule of one step the single
    entry of [beta] is [beta_start], so [beta[T-1]] is not [beta_end].  And
    the lower bound on [alpha_hat] cannot be strict in the code: for
    [T = 50] and [beta] from 9/10 to 99/100 the exact products from index 45
    on lie below [2^-150], half of the least positive float32 value, so
    the float32 products of the code are 0 there. *)
Lemma schedule_single_step_misses_beta_end :
  (exists d, __init__ 1 (1/10) (1/5) 64 = Ok d /\
     beta d = [1/10] /\
     at_ (beta d) (Z.to_nat 1 - 1) <> 1/5) /\
  (exists d, __init__ 50 (9/10) (99/100) 64 = Ok d /\
     forall i, (45 <= i < 50)%nat -> at_ (alpha_hat d) i < / 2 ^ 150).
Proof.
  split.
  - eexists. split; [reflexivity|]. split; [reflexivity|].
    unfold at_. simpl. lra.
  - eexists. split; [reflexivity|].
    match goal with
    | |- forall i, _ -> at_ (alpha_hat ?d) i < _ =>
        assert (Hd : __init__ 50 (9/10) (99/100) 64 = Ok d) by reflexivity;
        set (d0 := d) in *
    end.
    intros i Hi.
    destruct (init_lengths _ _ _ _ _ Hd) as (_ & Hla & _).
    destruct (init_inv _ _ _ _ _ Hd) as (_ & _ & _ & _ & _ & _ & Hah).
    assert (Hv : forall j, (j < length (alpha d0))%nat -> 0 < at_ (alpha d0) j <= 1/10).
    { intros j Hj. rewrite Hla in Hj.
      pose proof (valid_alpha_range 50 (9/10) (99/100) 64 d0 ltac:(lia)
                    ltac:(lra) ltac:(lra) ltac:(lra) Hd j Hj) as Ha.
      pose proof (valid_beta_range 50 (9/10) (99/100) 64 d0 ltac:(lia)
                    ltac:(lra) ltac:(lra) ltac:(lra) Hd j Hj) as Hb.
      rewrite (init_alpha _ _ _ _ _ _ Hd Hj) in *. lra. }
    rewrite Hah.
    apply Rle_lt_trans with ((1/10) ^ S i).
    + apply cumprod_geometric; [lra | exact Hv | rewrite Hla; simpl; lia].
    + apply Rle_lt_trans with ((1/10) ^ 46); [|exact tenth_pow_below_float32].
      apply pow_le_low; [lra|lia].
Qed.

(** C5 (as amended).  The constructor checks none of its parameters: it
    raises only for a negative [noise_steps], the error being the one of
    the linear spacing, and for every other [noise_steps] it returns a
    schedule of that many entries whatever [beta_start] and [beta_end] are. *)
Theorem init_without_validation (T : Z) (bs be : R) (s : nat) :
  if (T <? 0)%Z
  then __init__ T bs be s = Raise RuntimeError
  else exists d, __init__ T bs be s = Ok d /\
         noise_steps d = T /\ beta_start d = bs /\ beta_end d = be /\
         length (beta d) = Z.to_nat T /\
         length (alpha d) = Z.to_nat T /\
         length (alpha_hat d) = Z.to_nat T.
Proof.
  destruct (Z.ltb_spec T 0) as [Hneg|Hpos].
  - unfold __init__, prepare_noise_schedule.
    now rewrite linspace_negative.
  - destruct (linspace_length bs be T Hpos) as (b & Hb & _).
    assert (Hd : exists d, __init__ T bs be s = Ok d).
    { unfold __init__, prepare_noise_schedule. rewrite Hb. simpl. eauto. }
    destruct Hd as (d & Hd). exists d. split; [exact Hd|].
    destruct (init_inv _ _ _ _ _ Hd) as (_ & H1 & H2 & H3 & _).
    destruct (init_lengths _ _ _ _ _ Hd) as (H4 & H5 & H6).
    repeat split; assumption.
Qed.

(** C5, the claim as written fails: with [beta_start = 0] (and also with
    the bounds out of order) a schedule is returned. *)
Lemma init_accepts_invalid_betas :
  (exists d, __init__ 2 0 (1/2) 64 = Ok d /\ beta d = [0; 1/2]) /\
  (exists d, __init__ 2 (1/2) (1/4) 64 = Ok d /\ beta d = [1/2; 1/4]).
Proof.
  split; (eexists; split; [reflexivity|]); simpl;
    repeat (f_equal; try lra).
Qed.

(* ================================================================= *)
(** ** The timestep sampler *)

Lemma draws_raw_fst (n : nat) (g : Generator) :
  fst (draws n draw_raw g) = map (raw g) (seq 0 n).
Proof.
  revert g. induction n as [|n IH]; intros g; [reflexivity|].
  simpl. specialize (IH (snd (draw_raw g))).
  unfold draw_raw in *. simpl in *.
  destruct (draws n _ _) as [l g2]. simpl in *. rewrite IH.
  f_equal. now rewrite <- seq_shift, map_map.
Qed.

Lemma draws_raw_normal (n : nat) (g : Generator) (k : nat) :
  normal (snd (draws n draw_raw g)) k = normal g k.
Proof.
  revert g. induction n as [|n IH]; intros g; [reflexivity|].
  simpl. specialize (IH (snd (draw_raw g))).
  unfold draw_raw in *. simpl in *.
  destruct (draws n _ _) as [l g2]. simpl in *. exact IH.
Qed.

Lemma randint_ok (low high : Z) (n : nat) (w : World) :
  (low < high)%Z ->
  exists w', randint low high n w =
               (Ok (map (fun k => uniform_int_from_to low high (raw (gen w) k)) (seq 0 n)), w') /\
             training w' = training w /\ grad_enabled w' = grad_enabled w.
Proof.
  intros H. unfold randint, with_gen. apply Z.ltb_lt in H. rewrite H.
  pose proof (draws_raw_fst n (gen w)) as Hd.
  destruct (draws n draw_raw (gen w)) as [vs g']. simpl in Hd. subst vs.
  eexists. split.
  - rewrite map_map. reflexivity.
  - split; reflexivity.
Qed.

Lemma randint_empty_range (low high : Z) (n : nat) (w : World) :
  (high <= low)%Z -> randint low high n w = (Raise RuntimeError, w).
Proof.
  intros H. unfold randint.
  destruct (Z.ltb_spec low high); [lia|reflexivity].
Qed.

Lemma uniform_int_range (low high v : Z) :
  (low < high)%Z -> (low <= uniform_int_from_to low high v < high)%Z.
Proof.
  intros H. unfold uniform_int_from_to.
  pose proof (Z.mod_pos_bound v (high - low) ltac:(lia)). lia.
Qed.

(** Every value of the range is hit by exactly one raw integer out of any
    [high - low] consecutive ones. *)
Lemma uniform_int_balanced (low high t a : Z) :
  (low <= t < high)%Z ->
  exists v, (a <= v < a + (high - low))%Z /\ uniform_int_from_to low high v = t /\
    forall v', (a <= v' < a + (high - low))%Z ->
               uniform_int_from_to low high v' = t -> v' = v.
Proof.
  intros Ht. unfold uniform_int_from_to.
  set (m := (high - low)%Z). assert (Hm : (0 < m)%Z) by (unfold m; lia).
  exists (a + (t - low - a) mod m)%Z.
  pose proof (Z.mod_pos_bound (t - low - a) m Hm) as Hb.
  split; [lia|]. split.
  - rewrite Zplus_mod_idemp_r.
    replace (a + (t - low - a))%Z with (t - low)%Z by lia.
    rewrite Z.mod_small by (unfold m; lia). lia.
  - intros v' Hv' Heq.
    assert (Hr : (v' mod m = t - low)%Z) by lia.
    assert (Hd : ((v' - a) mod m = (t - low - a) mod m)%Z).
    { rewrite <- Hr. rewrite Zminus_mod_idemp_l. reflexivity. }
    rewrite Z.mod_small in Hd by lia. lia.
Qed.

(** C9.  With [noise_steps = T >= 2] the sampler returns [n] timesteps, all
    in the inclusive range [1, T-1], so never 0.  The [k]-th timestep is the
    reduction of the [k]-th raw draw of the generator alone, and the
    reduction is balanced: any [T-1] consecutive raw integers hit each value
    of the range exactly once. *)
Theorem sample_timestep_in_range (d : Diffusion) (n : nat) (w : World) :
  (2 <= noise_steps d)%Z ->
  exists ts w', sample_timestep d n w = (Ok ts, w') /\
    length ts = n /\
    Forall (fun t => (1 <= t <= noise_steps d - 1)%Z) ts /\
    ~ In 0%Z ts /\
    (forall k, (k < n)%nat ->
       nth k ts 0%Z = uniform_int_from_to 1 (noise_steps d) (raw (gen w) k)) /\
    (forall t a, (1 <= t <= noise_steps d - 1)%Z ->
       exists v, (a <= v < a + (noise_steps d - 1))%Z /\
         uniform_int_from_to 1 (noise_steps d) v = t /\
         forall v', (a <= v' < a + (noise_steps d - 1))%Z ->
                    uniform_int_from_to 1 (noise_steps d) v' = t -> v' = v).
Proof.
  intros HT. unfold sample_timestep.
  destruct (randint_ok 1 (noise_steps d) n w ltac:(lia)) as (w' & Hr & _).
  eexists. exists w'. split; [exact Hr|].
  assert (Hall : Forall (fun t => (1 <= t <= noise_steps d - 1)%Z)
            (map (fun k => uniform_int_from_to 1 (noise_steps d) (raw (gen w) k)) (seq 0 n))).
  { apply Forall_forall. intros t Ht. apply in_map_iff in Ht.
    destruct Ht as (k & <- & _).
    pose proof (uniform_int_range 1 (noise_steps d) (raw (gen w) k) ltac:(lia)). lia. }
  split; [now rewrite length_map, length_seq|].
  split; [exact Hall|]. split.
  - intros H0. rewrite Forall_forall in Hall. specialize (Hall _ H0). lia.
  - split.
    + intros k Hk.
      rewrite nth_map_in with (da := O) by now rewrite length_seq.
      now rewrite seq_nth.
    + intros t a Ht. apply uniform_int_balanced. lia.
Qed.

Lemma sample_timestep_in_range_witness :
  exists d, __init__ 10 (1/10) (1/5) 64 = Ok d /\
    exists ts w', sample_timestep d 4 world0 = (Ok ts, w') /\ length ts = 4%nat.
Proof.
  eexists. split; [reflexivity|].
  lazymatch goal with
  | |- exists ts w', sample_timestep ?d _ _ = _ /\ _ =>
      destruct (sample_timestep_in_range d 4 world0) as (ts & w' & H & Hl & _);
        [simpl; lia | exists ts, w'; split; [exact H | exact Hl]]
  end.
Defined.

(** C10.  With [noise_steps = 1] the sampler raises for every [n]: the
    integer draw is over the empty range [1, 1).  It returns timesteps only
    when [noise_steps >= 2]. *)
Theorem sample_timestep_single_step (d : Diffusion) (n : nat) (w : World) :
  (noise_steps d = 1%Z -> sample_timestep d n w = (Raise RuntimeError, w)) /\
  (forall ts w', sample_timestep d n w = (Ok ts, w') -> (2 <= noise_steps d)%Z).
Proof.
  unfold sample_timestep. split.
  - intros H. apply randint_empty_range. lia.
  - intros ts w' H. destruct (Z.le_gt_cases (noise_steps d) 1) as [Hle|Hgt]; [|lia].
    rewrite randint_empty_range in H by assumption. discriminate.
Qed.

(* ================================================================= *)
(** ** Tensors: shapes, entries and broadcasting *)

Lemma has_shape_cons {A} (r : nat) (d : nat) (sh : list nat) (x : list (tensor A r)) :
  has_shape (S r) (d :: sh) (x : tensor A (S r)) = true <->
  length x = d /\ forall e : tensor A r, In e x -> has_shape r sh e = true.
Proof.
  simpl. rewrite andb_true_iff, Nat.eqb_eq, forallb_forall. reflexivity.
Qed.

Lemma tget_cons {A} (r : nat) (d : A) (i : nat) (idx : list nat) (x : list (tensor A r)) :
  tget (S r) d (i :: idx) (x : tensor A (S r)) =
  match nth_error x i with
  | Some e => tget r d idx e
  | None => d
  end.
Proof. reflexivity. Qed.

Lemma compat_bidx_l (a b i : nat) :
  compat a b -> (i < bdim a b)%nat -> (bidx a i < a)%nat.
Proof.
  unfold compat, bdim, bidx. destruct (Nat.eqb_spec a 1); lia.
Qed.

Lemma compat_bidx_r (a b i : nat) :
  compat a b -> (i < bdim a b)%nat -> (bidx b i < b)%nat.
Proof.
  unfold compat, bdim, bidx.
  destruct (Nat.eqb_spec a 1); destruct (Nat.eqb_spec b 1); lia.
Qed.

(** One dimension at a time: the elementwise operation [f] is known to
    succeed between entries that satisfy [PX] and [PY], with a result
    related to its operands by [Q]. *)
Section OneDimension.

Context {A B C : Type}.
Variable f : A -> B -> result C.
Variables (PX : A -> Prop) (PY : B -> Prop) (Q : A -> B -> C -> Prop).
Hypothesis Hf : forall x y, PX x -> PY y -> exists z, f x y = Ok z /\ Q x y z.

Lemma zip_with_spec (xs : list A) (ys : list B) :
  length xs = length ys ->
  (forall x, In x xs -> PX x) -> (forall y, In y ys -> PY y) ->
  exists zs, zip_with f xs ys = Ok zs /\ length zs = length xs /\
    forall i x y z, nth_error xs i = Some x -> nth_error ys i = Some y ->
                    nth_error zs i = Some z -> Q x y z.
Proof using Hf.
  revert ys. induction xs as [|x xs IH]; intros [|y ys] Hl Hx Hy;
    simpl in Hl; try discriminate.
  - exists []. repeat split. intros [|i] ? ? ? H; discriminate.
  - destruct (Hf x y) as (z & Hz & Hq); [apply Hx; now left | apply Hy; now left |].
    destruct (IH ys) as (zs & Hzs & Hlen & Hnth);
      [lia | intros; apply Hx; now right | intros; apply Hy; now right |].
    exists (z :: zs). simpl. rewrite Hz. simpl. rewrite Hzs. simpl.
    split; [reflexivity|]. split; [now rewrite Hlen|].
    intros [|i] x' y' z' H1 H2 H3; simpl in *.
    + injection H1 as <-. injection H2 as <-. injection H3 as <-. exact Hq.
    + eapply Hnth; eassumption.
Qed.

Lemma map_r_left_spec (x : A) (ys : list B) :
  PX x -> (forall y, In y ys -> PY y) ->
  exists zs, map_r (f x) ys = Ok zs /\ length zs = length ys /\
    forall i y z, nth_error ys i = Some y -> nth_error zs i = Some z -> Q x y z.
Proof using Hf.
  intros Hx. induction ys as [|y ys IH]; intros Hy.
  - exists []. repeat split. intros [|i] ? ? H; discriminate.
  - destruct (Hf x y) as (z & Hz & Hq); [assumption | apply Hy; now left |].
    destruct IH as (zs & Hzs & Hlen & Hnth); [intros; apply Hy; now right|].
    exists (z :: zs). simpl. rewrite Hz. simpl. rewrite Hzs. simpl.
    split; [reflexivity|]. split; [now rewrite Hlen|].
    intros [|i] y' z' H2 H3; simpl in *.
    + injection H2 as <-. injection H3 as <-. exact Hq.
    + eapply Hnth; eassumption.
Qed.

Lemma map_r_right_spec (xs : list A) (y : B) :
  (forall x, In x xs -> PX x) -> PY y ->
  exists zs, map_r (fun x => f x y) xs = Ok zs /\ length zs = length xs /\
    forall i x z, nth_error xs i = Some x -> nth_error zs i = Some z -> Q x y z.
Proof using Hf.
  intros Hx Hy. induction xs as [|x xs IH].
  - exists []. repeat split. intros [|i] ? ? H; discriminate.
  - destruct (Hf x y) as (z & Hz & Hq); [apply Hx; now left | assumption |].
    destruct IH as (zs & Hzs & Hlen & Hnth); [intros; apply Hx; now right|].
    exists (z :: zs). simpl. rewrite Hz. simpl. rewrite Hzs. simpl.
    split; [reflexivity|]. split; [now rewrite Hlen|].
    intros [|i] x' z' H2 H3; simpl in *.
    + injection H2 as <-. injection H3 as <-. exact Hq.
    + eapply Hnth; eassumption.
Qed.

Lemma broadcast_spec (xs : list A) (ys : list B) :
  compat (length xs) (length ys) ->
  (forall x, In x xs -> PX x) -> (forall y, In y ys -> PY y) ->
  exists zs, broadcast f xs ys = Ok zs /\
    length zs = bdim (length xs) (length ys) /\
    forall i x y z,
      nth_error xs (bidx (length xs) i) = Some x ->
      nth_error ys (bidx (length ys) i) = Some y ->
      nth_error zs i = Some z -> Q x y z.
Proof using Hf.
  intros Hc Hx Hy. unfold broadcast.
  destruct (Nat.eqb_spec (length xs) (length ys)) as [Heq|Hne].
  - destruct (zip_with_spec xs ys Heq Hx Hy) as (zs & Hzs & Hlen & Hnth).
    exists zs. split; [exact Hzs|]. split.
    + unfold bdim. destruct (Nat.eqb_spec (length xs) 1); lia.
    + intros i x y z H1 H2 H3.
      assert (Hi : (i < length zs)%nat) by (apply nth_error_Some; congruence).
      unfold bidx in H1, H2.
      destruct (Nat.eqb_spec (length xs) 1) as [E1|E1];
        destruct (Nat.eqb_spec (length ys) 1) as [E2|E2]; try lia.
      * assert (i = 0%nat) as -> by lia. eapply Hnth; eassumption.
      * eapply Hnth; eassumption.
  - destruct Hc as [Hc|[Hc|Hc]]; [contradiction| |].
    + destruct xs as [|x [|x' xs]]; simpl in Hc; try discriminate.
      destruct (map_r_left_spec x ys) as (zs & Hzs & Hlen & Hnth);
        [apply Hx; now left | assumption |].
      exists zs. split; [exact Hzs|]. split; [exact Hlen|].
      intros i x0 y z H1 H2 H3. simpl in H1. injection H1 as <-.
      unfold bidx in H2.
      destruct (Nat.eqb_spec (length ys) 1) as [E2|E2]; [simpl in Hne; lia|].
      eapply Hnth; eassumption.
    + destruct ys as [|y [|y' ys]]; simpl in Hc; try discriminate.
      destruct (map_r_right_spec xs y) as (zs & Hzs & Hlen & Hnth);
        [assumption | apply Hy; now left |].
      exists zs.
      assert (Hb : match xs with
                   | [x] => map_r (f x) [y]
                   | _ => map_r (fun x => f x y) xs
                   end = map_r (fun x => f x y) xs).
      { destruct xs as [|x1 [|x2 xs']]; reflexivity. }
      rewrite Hb. split; [exact Hzs|]. split.
      * unfold bdim. destruct (Nat.eqb_spec (length xs) 1); [simpl in Hne; lia|exact Hlen].
      * intros i x0 y0 z H1 H2 H3. simpl in H2. injection H2 as <-.
        unfold bidx in H1.
        destruct (Nat.eqb_spec (length xs) 1) as [E1|E1]; [simpl in Hne; lia|].
        eapply Hnth; eassumption.
Qed.

End OneDimension.

Lemma in_bounds_bindex_l (shx shy idx : list nat) :
  Forall2 compat shx shy -> in_bounds (bshape shx shy) idx ->
  in_bounds shx (bindex shx idx).
Proof.
  intros Hc. revert idx. induction Hc as [|a b shx shy Hab Hc IH]; intros idx H.
  - destruct idx; simpl in *; auto.
  - destruct idx as [|i idx]; simpl in *; [contradiction|].
    destruct H as [Hi H]. split; [now apply compat_bidx_l with b | now apply IH].
Qed.

Lemma in_bounds_bindex_r (shx shy idx : list nat) :
  Forall2 compat shx shy -> in_bounds (bshape shx shy) idx ->
  in_bounds shy (bindex shy idx).
Proof.
  intros Hc. revert idx. induction Hc as [|a b shx shy Hab Hc IH]; intros idx H.
  - destruct idx; simpl in *; auto.
  - destruct idx as [|i idx]; simpl in *; [contradiction|].
    destruct H as [Hi H]. split; [now apply compat_bidx_r with a | now apply IH].
Qed.

(** torch's broadcasting rule for a binary elementwise operation. *)
Lemma tbin_spec {A B C} (op : A -> B -> C) (dx : A) (dy : B) (dz : C) (r : nat) :
  forall (shx shy : list nat) (x : tensor A r) (y : tensor B r),
    has_shape r shx x = true -> has_shape r shy y = true ->
    Forall2 compat shx shy ->
    exists z, tbin r op x y = Ok z /\
      has_shape r (bshape shx shy) z = true /\
      forall idx, in_bounds (bshape shx shy) idx ->
        tget r dz idx z =
        op (tget r dx (bindex shx idx) x) (tget r dy (bindex shy idx) y).
Proof.
  induction r as [|r IH]; intros shx shy x y Hx Hy Hc.
  - destruct shx; [|discriminate]. destruct shy; [|discriminate].
    exists (op x y). simpl. auto.
  - destruct shx as [|a shx]; [discriminate|]. destruct shy as [|b shy]; [discriminate|].
    change (tensor A (S r)) with (list (tensor A r)) in x.
    change (tensor B (S r)) with (list (tensor B r)) in y.
    apply has_shape_cons in Hx. destruct Hx as [Hlx Hex].
    apply has_shape_cons in Hy. destruct Hy as [Hly Hey].
    inversion Hc as [|? ? ? ? Hab Hc']; subst.
    destruct (broadcast_spec (tbin r op)
                (fun e => has_shape r shx e = true)
                (fun e => has_shape r shy e = true)
                (fun ex ey ez =>
                   has_shape r (bshape shx shy) ez = true /\
                   forall idx, in_bounds (bshape shx shy) idx ->
                     tget r dz idx ez =
                     op (tget r dx (bindex shx idx) ex) (tget r dy (bindex shy idx) ey))
                (fun ex ey Hex' Hey' => IH shx shy ex ey Hex' Hey' Hc')
                x y Hab Hex Hey) as (z & Hz & Hlen & Hnth).
    exists z. split; [exact Hz|]. split.
    + apply has_shape_cons. split; [exact Hlen|].
      intros e He. apply In_nth_error in He. destruct He as [i Hi].
      assert (Hlt : (i < bdim (length x) (length y))%nat).
      { rewrite <- Hlen. apply nth_error_Some. congruence. }
      destruct (nth_error x (bidx (length x) i)) as [ex|] eqn:Ex;
        [|apply nth_error_None in Ex; pose proof (compat_bidx_l _ _ _ Hab Hlt); lia].
      destruct (nth_error y (bidx (length y) i)) as [ey|] eqn:Ey;
        [|apply nth_error_None in Ey; pose proof (compat_bidx_r _ _ _ Hab Hlt); lia].
      apply (Hnth i ex ey e Ex Ey Hi).
    + intros [|i idx] Hin; simpl in Hin; [contradiction|]. destruct Hin as [Hlt Hin].
      destruct (nth_error x (bidx (length x) i)) as [ex|] eqn:Ex;
        [|apply nth_error_None in Ex; pose proof (compat_bidx_l _ _ _ Hab Hlt); lia].
      destruct (nth_error y (bidx (length y) i)) as [ey|] eqn:Ey;
        [|apply nth_error_None in Ey; pose proof (compat_bidx_r _ _ _ Hab Hlt); lia].
      destruct (nth_error z i) as [ez|] eqn:Ez;
        [|apply nth_error_None in Ez; lia].
      change (bindex (length x :: shx) (i :: idx)) with (bidx (length x) i :: bindex shx idx).
      change (bindex (length y :: shy) (i :: idx)) with (bidx (length y) i :: bindex shy idx).
      rewrite !tget_cons, Ex, Ey, Ez.
      apply (Hnth i ex ey ez Ex Ey Ez). exact Hin.
Qed.

Lemma bdim_same (a : nat) : bdim a a = a.
Proof. unfold bdim. destruct (Nat.eqb_spec a 1); congruence. Qed.

Lemma bidx_lt (a i : nat) : (i < a)%nat -> bidx a i = i.
Proof. unfold bidx. destruct (Nat.eqb_spec a 1); lia. Qed.

Lemma bshape_same (sh : list nat) : bshape sh sh = sh.
Proof. induction sh; simpl; [|rewrite bdim_same, IHsh]; reflexivity. Qed.

Lemma bindex_same (sh idx : list nat) : in_bounds sh idx -> bindex sh idx = idx.
Proof.
  revert idx. induction sh as [|a sh IH]; intros [|i idx] H; simpl in *;
    try contradiction; try reflexivity.
  destruct H as [Hi H]. now rewrite bidx_lt, IH.
Qed.

Lemma compat_same (sh : list nat) : Forall2 compat sh sh.
Proof. induction sh; constructor; [now left|assumption]. Qed.

Lemma is_tensor_ext (r : nat) (sh : list nat) (x : tensor R r) (g g' : list nat -> R) :
  (forall idx, in_bounds sh idx -> g idx = g' idx) ->
  is_tensor r sh x g -> is_tensor r sh x g'.
Proof.
  intros He [Hs Hg]. split; [exact Hs|].
  intros idx Hi. rewrite Hg by assumption. now apply He.
Qed.

(** Two operands of one shape. *)
Lemma tbin_same_shape (op : R -> R -> R) (r : nat) (sh : list nat)
  (x y : tensor R r) (gx gy : list nat -> R) :
  is_tensor r sh x gx -> is_tensor r sh y gy ->
  exists z, tbin r op x y = Ok z /\
    is_tensor r sh z (fun idx => op (gx idx) (gy idx)).
Proof.
  intros [Hx Hgx] [Hy Hgy].
  destruct (tbin_spec op 0 0 0 r sh sh x y Hx Hy (compat_same sh)) as (z & Hz & Hs & He).
  rewrite bshape_same in Hs, He.
  exists z. split; [exact Hz|]. split; [exact Hs|].
  intros idx Hi. rewrite He by assumption.
  rewrite bindex_same by assumption. now rewrite Hgx, Hgy.
Qed.

(** A per-sample coefficient, of shape [(n, 1, 1, 1)], against a batch. *)
Lemma tbin_per_sample (op : R -> R -> R) (n c h w : nat)
  (x y : tensor R 4) (gx gy : list nat -> R) :
  is_tensor 4 [n; 1; 1; 1]%nat x gx -> is_tensor 4 [n; c; h; w] y gy ->
  exists z, tbin 4 op x y = Ok z /\
    is_tensor 4 [n; c; h; w] z
      (fun idx => op (gx [nth 0 idx 0; 0; 0; 0]%nat) (gy idx)).
Proof.
  intros [Hx Hgx] [Hy Hgy].
  assert (Hc : Forall2 compat [n; 1; 1; 1]%nat [n; c; h; w]).
  { repeat (apply Forall2_cons || apply Forall2_nil); unfold compat; auto. }
  destruct (tbin_spec op 0 0 0 4 _ _ x y Hx Hy Hc) as (z & Hz & Hs & He).
  assert (Hb : bshape [n; 1; 1; 1]%nat [n; c; h; w] = [n; c; h; w]).
  { simpl. now rewrite bdim_same. }
  rewrite Hb in Hs, He.
  exists z. split; [exact Hz|]. split; [exact Hs|].
  intros idx Hi. rewrite He by assumption.
  rewrite (bindex_same [n; c; h; w]) by assumption.
  rewrite Hgy by assumption.
  destruct idx as [|i [|j [|k [|l [|]]]]]; simpl in Hi; try tauto.
  destruct Hi as (Hi & _). f_equal.
  assert (Hbi : bindex [n; 1; 1; 1]%nat [i; j; k; l] = [i; 0; 0; 0]%nat).
  { simpl. now rewrite bidx_lt. }
  rewrite Hbi. apply Hgx. simpl. lia.
Qed.

Lemma tmap_shape {A B} (f : A -> B) (r : nat) (sh : list nat) (x : tensor A r) :
  has_shape r sh (tmap r f x) = has_shape r sh x.
Proof.
  revert sh x. induction r as [|r IH]; intros sh x; [reflexivity|].
  destruct sh as [|d sh]; [reflexivity|]. simpl.
  rewrite length_map. f_equal.
  induction x as [|e x IHx]; [reflexivity|]. simpl. now rewrite IH, IHx.
Qed.

Lemma tmap_get {A B} (f : A -> B) (da : A) (db : B) (r : nat) :
  forall (sh idx : list nat) (x : tensor A r),
    has_shape r sh x = true -> in_bounds sh idx ->
    tget r db idx (tmap r f x) = f (tget r da idx x).
Proof.
  induction r as [|r IH]; intros sh idx x Hs Hi; [reflexivity|].
  destruct sh as [|d sh]; [discriminate|].
  destruct idx as [|i idx]; [contradiction|]. destruct Hi as [Hlt Hi].
  change (tensor A (S r)) with (list (tensor A r)) in x.
  apply has_shape_cons in Hs. destruct Hs as [Hl He].
  change (tmap (S r) f x) with (map (tmap r f) x).
  rewrite (tget_cons r db), (tget_cons r da), nth_error_map.
  destruct (nth_error x i) as [e|] eqn:E; [|apply nth_error_None in E; lia].
  simpl. apply (IH sh); [|exact Hi]. apply He. eapply nth_error_In; eassumption.
Qed.

Lemma tmap_entries (f : R -> R) (r : nat) (sh : list nat) (x : tensor R r)
  (g : list nat -> R) :
  is_tensor r sh x g -> is_tensor r sh (tmap r f x) (fun idx => f (g idx)).
Proof.
  intros [Hs Hg]. split; [now rewrite tmap_shape|].
  intros idx Hi. rewrite (tmap_get f 0 0 r sh) by assumption. now rewrite Hg.
Qed.

Lemma tensor_entries (r : nat) (sh : list nat) (x : tensor R r) :
  has_shape r sh x = true -> is_tensor r sh x (fun idx => tget r 0 idx x).
Proof. intros H. split; auto. Qed.

Lemma unsqueeze3_entries (v : tensor R 1) :
  is_tensor 4 [length v; 1; 1; 1]%nat (unsqueeze3 v) (fun idx => at_ v (nth 0 idx 0%nat)).
Proof.
  split.
  - unfold unsqueeze3. apply has_shape_cons. split; [apply length_map|].
    intros e He. apply in_map_iff in He. destruct He as (c & <- & _). reflexivity.
  - intros idx Hi.
    destruct idx as [|i [|j [|k [|l [|]]]]]; simpl in Hi; try tauto.
    destruct Hi as (Hi & Hj & Hk & Hl & _).
    assert (j = 0 /\ k = 0 /\ l = 0)%nat as (-> & -> & ->) by lia.
    unfold unsqueeze3, at_. simpl. rewrite nth_error_map.
    destruct (nth_error v i) as [c|] eqn:E; [|apply nth_error_None in E; lia].
    simpl. symmetry. now apply nth_error_nth.
Qed.

(* ================================================================= *)
(** ** Random tensors *)

Lemma draws_like_spec {A B S} (f : A -> S -> B * S) (P : B -> Prop) (xs : list A) :
  (forall e s, In e xs -> P (fst (f e s))) ->
  forall s, length (fst (draws_like f xs s)) = length xs /\
            forall z, In z (fst (draws_like f xs s)) -> P z.
Proof.
  induction xs as [|x xs IH]; intros Hf s; simpl.
  - split; [reflexivity|]. intros z [].
  - pose proof (Hf x s (or_introl eq_refl)) as Hx.
    destruct (f x s) as [b s1]. simpl in Hx.
    destruct (IH (fun e s' He => Hf e s' (or_intror He)) s1) as [Hl Hz].
    destruct (draws_like f xs s1) as [l s2]. simpl in *.
    split; [now rewrite Hl|]. intros z [<-|Hin]; auto.
Qed.

Lemma randn_like_shape (r : nat) :
  forall (sh : list nat) (x : tensor R r) (g : Generator),
    has_shape r sh x = true ->
    has_shape r sh (fst (randn_like_gen r x g)) = true.
Proof.
  induction r as [|r IH]; intros sh x g Hs.
  - destruct sh; [reflexivity|discriminate].
  - destruct sh as [|d sh]; [discriminate|].
    change (tensor R (S r)) with (list (tensor R r)) in x.
    apply has_shape_cons in Hs. destruct Hs as [Hl He].
    change (randn_like_gen (S r) x g) with (draws_like (randn_like_gen r) x g).
    destruct (draws_like_spec (randn_like_gen r)
                (fun z => has_shape r sh z = true) x
                (fun e s Hin => IH sh e s (He e Hin)) g) as [Hlen Hz].
    apply has_shape_cons. split; [exact (eq_trans Hlen Hl)|exact Hz].
Qed.


(* ================================================================= *)
(** ** Integer indexing *)

Lemma map_r_length {A B} (f : A -> result B) (xs : list A) (ys : list B) :
  map_r f xs = Ok ys -> length ys = length xs.
Proof.
  revert ys. induction xs as [|x xs IH]; intros ys H; simpl in H.
  - injection H as <-. reflexivity.
  - destruct (f x) as [b|e]; simpl in H; [|discriminate].
    destruct (map_r f xs) as [bs|e]; simpl in H; [|discriminate].
    injection H as <-. simpl. f_equal. now apply IH.
Qed.

Lemma map_r_total {A B} (f : A -> result B) (g : A -> B) (xs : list A) :
  (forall x, In x xs -> f x = Ok (g x)) -> map_r f xs = Ok (map g xs).
Proof.
  induction xs as [|x xs IH]; intros H; simpl; [reflexivity|].
  rewrite (H x) by now left. simpl.
  rewrite IH by (intros; apply H; now right). reflexivity.
Qed.

Lemma map_r_raise {A B} (f : A -> result B) (xs : list A) (e : exn) :
  (forall x, In x xs -> f x = Raise e \/ exists b, f x = Ok b) ->
  (exists x, In x xs /\ f x = Raise e) ->
  map_r f xs = Raise e.
Proof.
  induction xs as [|x xs IH]; intros Hall (x0 & Hin & Hr); [destruct Hin|].
  simpl. destruct (Hall x (or_introl eq_refl)) as [Hx|[b Hx]]; rewrite Hx; simpl.
  - reflexivity.
  - destruct Hin as [->|Hin]; [congruence|].
    rewrite IH; [reflexivity | intros; apply Hall; now right | eauto].
Qed.

Lemma getitem_nonneg (v : list R) (i : Z) :
  (0 <= i < Z.of_nat (length v))%Z -> getitem v i = Ok (at_ v (Z.to_nat i)).
Proof.
  intros H. unfold getitem, wrap_index.
  destruct (Z.ltb_spec i 0); [lia|].
  destruct (Z.leb_spec 0 i); [|lia].
  destruct (Z.ltb_spec i (Z.of_nat (length v))); [|lia]. simpl.
  destruct (nth_error v (Z.to_nat i)) as [a|] eqn:E.
  - unfold at_. now rewrite (nth_error_nth _ _ _ E).
  - apply nth_error_None in E. lia.
Qed.

Lemma getitem_negative (v : list R) (i : Z) :
  (- Z.of_nat (length v) <= i < 0)%Z ->
  getitem v i = Ok (at_ v (Z.to_nat (i + Z.of_nat (length v)))).
Proof.
  intros H. unfold getitem, wrap_index.
  destruct (Z.ltb_spec i 0); [|lia].
  destruct (Z.leb_spec 0 (i + Z.of_nat (length v))); [|lia].
  destruct (Z.ltb_spec (i + Z.of_nat (length v)) (Z.of_nat (length v))); [|lia]. simpl.
  destruct (nth_error v (Z.to_nat (i + Z.of_nat (length v)))) as [a|] eqn:E.
  - unfold at_. now rewrite (nth_error_nth _ _ _ E).
  - apply nth_error_None in E. lia.
Qed.

Lemma getitem_out_of_range (v : list R) (i : Z) :
  (i < - Z.of_nat (length v) \/ Z.of_nat (length v) <= i)%Z ->
  getitem v i = Raise IndexError.
Proof.
  intros H. unfold getitem, wrap_index.
  destruct (Z.ltb_spec i 0).
  - destruct (Z.leb_spec 0 (i + Z.of_nat (length v))); [lia|reflexivity].
  - destruct (Z.leb_spec 0 i); [|lia].
    destruct (Z.ltb_spec i (Z.of_nat (length v))); [lia|reflexivity].
Qed.

Lemma getitem_cases (v : list R) (i : Z) :
  getitem v i = Raise IndexError \/ exists b, getitem v i = Ok b.
Proof.
  destruct (Z_lt_le_dec i (- Z.of_nat (length v))).
  - left. apply getitem_out_of_range. lia.
  - destruct (Z_lt_le_dec i 0).
    + right. eexists. apply getitem_negative. lia.
    + destruct (Z_lt_le_dec i (Z.of_nat (length v))).
      * right. eexists. apply getitem_nonneg. lia.
      * left. apply getitem_out_of_range. lia.
Qed.

Lemma getitem_wrapped (v : list R) (i : Z) :
  (- Z.of_nat (length v) <= i < Z.of_nat (length v))%Z ->
  getitem v i = Ok (at_ v (Z.to_nat (wrap_index (Z.of_nat (length v)) i))).
Proof.
  intros H. unfold wrap_index. destruct (Z.ltb_spec i 0).
  - apply getitem_negative. lia.
  - apply getitem_nonneg. lia.
Qed.

Lemma index_wrapped (v : tensor R 1) (t : tensor Z 1) :
  Forall (fun ti => (- Z.of_nat (length v) <= ti < Z.of_nat (length v))%Z) t ->
  index v t = Ok (map (fun ti => at_ v (Z.to_nat (wrap_index (Z.of_nat (length v)) ti))) t).
Proof.
  intros H. unfold index. apply map_r_total.
  intros ti Hin. rewrite Forall_forall in H. now apply getitem_wrapped, H.
Qed.

Lemma index_out_of_range (v : tensor R 1) (t : tensor Z 1) :
  (exists ti, In ti t /\ (ti < - Z.of_nat (length v) \/ Z.of_nat (length v) <= ti)%Z) ->
  index v t = Raise IndexError.
Proof.
  intros (ti & Hin & Hti). unfold index. apply map_r_raise.
  - intros x _. apply getitem_cases.
  - exists ti. split; [exact Hin|]. now apply getitem_out_of_range.
Qed.

Lemma index_in_range (v : tensor R 1) (t : tensor Z 1) :
  Forall (fun ti => (0 <= ti < Z.of_nat (length v))%Z) t ->
  index v t = Ok (map (fun ti => at_ v (Z.to_nat ti)) t).
Proof.
  intros H. unfold index. apply map_r_total.
  intros ti Hin. rewrite Forall_forall in H. now apply getitem_nonneg, H.
Qed.

Lemma int_part_IZR (z : Z) : Int_part (IZR z) = z.
Proof. symmetry. apply Int_part_spec. lra. Qed.

Lemma trunc_IZR (z : Z) : trunc (IZR z) = z.
Proof.
  unfold trunc. destruct (Rle_dec 0 (IZR z)); [apply int_part_IZR|].
  rewrite <- opp_IZR, int_part_IZR. lia.
Qed.

(** [(torch.ones(n) * i).long()] *)
Lemma long_scaled_ones (n : nat) (i : Z) :
  tmap 1 long (tmap 1 (fun v => v * IZR i) (ones n)) = repeat i n.
Proof.
  unfold ones. induction n as [|n IH]; [reflexivity|].
  simpl in *. rewrite IH. f_equal.
  unfold long. rewrite Rmult_1_l. apply trunc_IZR.
Qed.

Lemma index_repeat (v : tensor R 1) (i : Z) (n : nat) :
  (0 <= i < Z.of_nat (length v))%Z ->
  index v (repeat i n) = Ok (repeat (at_ v (Z.to_nat i)) n).
Proof.
  intros H. rewrite index_in_range.
  - f_equal. induction n; simpl; [|rewrite IHn]; reflexivity.
  - apply Forall_forall. intros ti Hin. apply repeat_spec in Hin. now subst.
Qed.

(* ================================================================= *)
(** ** One reverse step *)

(** The update expression, entry by entry, for per-sample coefficients
    [a], [ah], [b] (the looked-up [alpha[t]], [alpha_hat[t]], [beta[t]]). *)
Lemma update_spec (n c h w : nat) (x e noise : tensor R 4) (a ah b : tensor R 1) :
  has_shape 4 [n; c; h; w] x = true ->
  has_shape 4 [n; c; h; w] e = true ->
  has_shape 4 [n; c; h; w] noise = true ->
  length a = n -> length ah = n -> length b = n ->
  exists x',
    update x e (unsqueeze3 a) (unsqueeze3 ah) (unsqueeze3 b) noise = Ok x' /\
    has_shape 4 [n; c; h; w] x' = true /\
    forall i j k l, (i < n)%nat -> (j < c)%nat -> (k < h)%nat -> (l < w)%nat ->
      entry x' i j k l =
      1 / sqrt (at_ a i)
      * (entry x i j k l - (1 - at_ a i) / sqrt (1 - at_ ah i) * entry e i j k l)
      + sqrt (at_ b i) * entry noise i j k l.
Proof.
  intros Hx He Hn Hla Hlah Hlb.
  pose proof (unsqueeze3_entries a) as Ta. rewrite Hla in Ta.
  pose proof (unsqueeze3_entries ah) as Tah. rewrite Hlah in Tah.
  pose proof (unsqueeze3_entries b) as Tb. rewrite Hlb in Tb.
  pose proof (tensor_entries 4 _ x Hx) as Tx.
  pose proof (tensor_entries 4 _ e He) as Te.
  pose proof (tensor_entries 4 _ noise Hn) as Tn.
  pose proof (tmap_entries (fun v => 1 / v) _ _ _ _ (tmap_entries sqrt _ _ _ _ Ta)) as Tinv.
  pose proof (tmap_entries (fun v => 1 - v) _ _ _ _ Ta) as Tnum.
  pose proof (tmap_entries sqrt _ _ _ _ (tmap_entries (fun v => 1 - v) _ _ _ _ Tah)) as Tden.
  pose proof (tmap_entries sqrt _ _ _ _ Tb) as Tsb.
  destruct (tbin_same_shape Rdiv _ _ _ _ _ _ Tnum Tden) as (coef & Ecoef & Tcoef).
  destruct (tbin_per_sample Rmult _ _ _ _ _ _ _ _ Tcoef Te) as (scaled & Escaled & Tscaled).
  destruct (tbin_same_shape Rminus _ _ _ _ _ _ Tx Tscaled) as (diff & Ediff & Tdiff).
  destruct (tbin_per_sample Rmult _ _ _ _ _ _ _ _ Tinv Tdiff) as (mean & Emean & Tmean).
  destruct (tbin_per_sample Rmult _ _ _ _ _ _ _ _ Tsb Tn) as (spread & Espread & Tspread).
  destruct (tbin_same_shape Rplus _ _ _ _ _ _ Tmean Tspread) as (x' & Ex' & Tx').
  exists x'. split.
  - unfold update. rewrite Ecoef. cbn [rbind]. rewrite Escaled. cbn [rbind].
    rewrite Ediff. cbn [rbind]. rewrite Emean. cbn [rbind].
    rewrite Espread. cbn [rbind]. exact Ex'.
  - destruct Tx' as [Hs Hg]. split; [exact Hs|].
    intros i j k l Hi Hj Hk Hl. unfold entry.
    rewrite Hg by (simpl; auto). reflexivity.
Qed.

Lemma at_map (f : R -> R) (v : list R) (i : nat) :
  (i < length v)%nat -> at_ (map f v) i = f (at_ v i).
Proof. intros Hi. unfold at_. now apply nth_map_in. Qed.

Lemma at_repeat (v : R) (n i : nat) : (i < n)%nat -> at_ (repeat v n) i = v.
Proof.
  intros Hi. unfold at_. apply nth_repeat_lt. exact Hi.
Qed.

Lemma step_noise_shape (n c h k : nat) (x : tensor R 4) (w : World) :
  has_shape 4 [n; c; h; k] x = true ->
  has_shape 4 [n; c; h; k] (step_noise n x w) = true.
Proof.
  intros Hx. unfold step_noise. destruct (1 <? n)%nat.
  - now apply randn_like_shape.
  - unfold zeros_like. now rewrite tmap_shape.
Qed.

Lemma step_noise_run (n : nat) (x : tensor R 4) (w : World) :
  (if (1 <? n)%nat then randn_like 4 x else ret (zeros_like 4 x)) w =
  (Ok (step_noise n x w), step_world n x w).
Proof.
  unfold step_noise, step_world. destruct (1 <? n)%nat; [|reflexivity].
  unfold randn_like, with_gen. now destruct (randn_like_gen 4 x (gen w)).
Qed.

Lemma sample_step_unfold (d : Diffusion) (model : Predictor) (n : nat) (i : Z)
  (x : tensor R 4) (w : World) :
  sample_step d model n i x w =
  match forward model (training w) x (repeat i n) with
  | Raise ex => (Raise ex, w)
  | Ok e =>
      match index (alpha d) (repeat i n) with
      | Raise ex => (Raise ex, w)
      | Ok a =>
          match index (alpha_hat d) (repeat i n) with
          | Raise ex => (Raise ex, w)
          | Ok ah =>
              match index (beta d) (repeat i n) with
              | Raise ex => (Raise ex, w)
              | Ok b =>
                  (update x e (unsqueeze3 a) (unsqueeze3 ah) (unsqueeze3 b)
                          (step_noise n x w),
                   step_world n x w)
              end
          end
      end
  end.
Proof.
  unfold sample_step. cbv zeta. rewrite long_scaled_ones.
  unfold mbind at 1. unfold call.
  destruct (forward model (training w) x (repeat i n)) as [e|ex]; [|reflexivity].
  unfold mbind at 1. unfold lift at 1.
  destruct (index (alpha d) (repeat i n)) as [a|ex]; [|reflexivity].
  unfold mbind at 1. unfold lift at 1.
  destruct (index (alpha_hat d) (repeat i n)) as [ah|ex]; [|reflexivity].
  unfold mbind at 1. unfold lift at 1.
  destruct (index (beta d) (repeat i n)) as [b|ex]; [|reflexivity].
  unfold mbind. rewrite step_noise_run. unfold lift.
  destruct (update _ _ _ _ _ _); reflexivity.
Qed.

(** A step on a batch of shape [(n, c, h, k)], for a timestep inside the
    schedule and a prediction of the batch's shape. *)
Lemma sample_step_ok (d : Diffusion) (model : Predictor) (n c h k : nat) (i : Z)
  (x e : tensor R 4) (w : World) :
  has_shape 4 [n; c; h; k] x = true ->
  forward model (training w) x (repeat i n) = Ok e ->
  has_shape 4 [n; c; h; k] e = true ->
  (0 <= i < Z.of_nat (length (alpha d)))%Z ->
  (0 <= i < Z.of_nat (length (alpha_hat d)))%Z ->
  (0 <= i < Z.of_nat (length (beta d)))%Z ->
  exists x',
    sample_step d model n i x w = (Ok x', step_world n x w) /\
    has_shape 4 [n; c; h; k] x' = true /\
    forall b j p q, (b < n)%nat -> (j < c)%nat -> (p < h)%nat -> (q < k)%nat ->
      entry x' b j p q =
      1 / sqrt (at_ (alpha d) (Z.to_nat i))
      * (entry x b j p q
         - (1 - at_ (alpha d) (Z.to_nat i)) / sqrt (1 - at_ (alpha_hat d) (Z.to_nat i))
           * entry e b j p q)
      + sqrt (at_ (beta d) (Z.to_nat i)) * entry (step_noise n x w) b j p q.
Proof.
  intros Hx Hf He Ha Hah Hb.
  rewrite sample_step_unfold, Hf.
  rewrite (index_repeat _ _ n Ha), (index_repeat _ _ n Hah), (index_repeat _ _ n Hb).
  destruct (update_spec n c h k x e (step_noise n x w)
              (repeat (at_ (alpha d) (Z.to_nat i)) n)
              (repeat (at_ (alpha_hat d) (Z.to_nat i)) n)
              (repeat (at_ (beta d) (Z.to_nat i)) n)
              Hx He (step_noise_shape n c h k x w Hx)
              (repeat_length _ _) (repeat_length _ _) (repeat_length _ _))
    as (x' & Hu & Hs & Hent).
  exists x'. rewrite Hu. split; [reflexivity|]. split; [exact Hs|].
  intros b j p q Hb' Hj Hp Hq. rewrite (Hent b j p q Hb' Hj Hp Hq).
  now rewrite !at_repeat by assumption.
Qed.

Lemma sample_step_raise (d : Diffusion) (model : Predictor) (n : nat) (i : Z)
  (x : tensor R 4) (w : World) (ex : exn) :
  forward model (training w) x (repeat i n) = Raise ex ->
  sample_step d model n i x w = (Raise ex, w).
Proof. intros Hf. now rewrite sample_step_unfold, Hf. Qed.

Lemma step_world_modes (n : nat) (x : tensor R 4) (w : World) :
  training (step_world n x w) = training w /\
  grad_enabled (step_world n x w) = grad_enabled w.
Proof. unfold step_world. destruct (1 <? n)%nat; split; reflexivity. Qed.

(** Whatever the schedule, a step that returns keeps the batch's shape,
    provided the prediction has it. *)
Lemma sample_step_shape (d : Diffusion) (model : Predictor) (n c h k : nat) (i : Z)
  (x x' : tensor R 4) (w w' : World) :
  has_shape 4 [n; c; h; k] x = true ->
  (forall e, forward model (training w) x (repeat i n) = Ok e ->
             has_shape 4 [n; c; h; k] e = true) ->
  sample_step d model n i x w = (Ok x', w') ->
  has_shape 4 [n; c; h; k] x' = true /\ w' = step_world n x w.
Proof.
  intros Hx Hc. rewrite sample_step_unfold.
  destruct (forward model (training w) x (repeat i n)) as [e|ex] eqn:Hf; [|discriminate].
  destruct (index (alpha d) (repeat i n)) as [a|ex] eqn:Ha; [|discriminate].
  destruct (index (alpha_hat d) (repeat i n)) as [ah|ex] eqn:Hah; [|discriminate].
  destruct (index (beta d) (repeat i n)) as [b|ex] eqn:Hb; [|discriminate].
  apply map_r_length in Ha, Hah, Hb. rewrite repeat_length in Ha, Hah, Hb.
  destruct (update_spec n c h k x e (step_noise n x w) a ah b
              Hx (Hc e eq_refl) (step_noise_shape n c h k x w Hx) Ha Hah Hb)
    as (x'' & Hu & Hs & _).
  rewrite Hu. intros H. injection H as <- <-. split; [exact Hs|reflexivity].
Qed.

Lemma map_seq_shift {A} (f : nat -> A) (m a n : nat) :
  map (fun k => f (m + k)%nat) (seq a n) = map f (seq (m + a) n).
Proof.
  revert a. induction n as [|n IH]; intros a; [reflexivity|].
  simpl. f_equal. rewrite IH. now rewrite Nat.add_succ_r.
Qed.

(** [torch.randn_like] hands out the next [numel] normal draws of the
    generator, in row-major order, and leaves the generator past them. *)
Lemma draws_like_flat (r : nat) (m : nat) (xs : list (tensor R r)) :
  (forall e g, In e xs ->
     flatten r (fst (randn_like_gen r e g)) = map (normal g) (seq 0 m) /\
     (forall k, normal (snd (randn_like_gen r e g)) k = normal g (m + k)%nat)) ->
  forall g,
    flat_map (flatten r) (fst (draws_like (randn_like_gen r) xs g)) =
      map (normal g) (seq 0 (length xs * m)) /\
    (forall k, normal (snd (draws_like (randn_like_gen r) xs g)) k =
               normal g (length xs * m + k)%nat).
Proof.
  induction xs as [|x xs IH]; intros Hf g.
  - split; reflexivity.
  - destruct (Hf x g (or_introl eq_refl)) as [Hx1 Hx2].
    simpl draws_like. destruct (randn_like_gen r x g) as [z g1]. simpl in Hx1, Hx2.
    destruct (IH (fun e g' He => Hf e g' (or_intror He)) g1) as [H1 H2].
    destruct (draws_like (randn_like_gen r) xs g1) as [l g2]. simpl in H1, H2.
    simpl fst. simpl snd. split.
    + simpl flat_map. rewrite Hx1, H1.
      change (length (x :: xs) * m)%nat with (m + length xs * m)%nat.
      rewrite seq_app, map_app. f_equal. simpl.
      rewrite <- (Nat.add_0_r m) at 2. rewrite <- map_seq_shift.
      apply map_ext. intros k. apply Hx2.
    + intros k. rewrite H2, Hx2.
      change (length (x :: xs) * m)%nat with (m + length xs * m)%nat.
      f_equal. lia.
Qed.

Lemma randn_like_flat (r : nat) :
  forall (sh : list nat) (x : tensor R r) (g : Generator),
    has_shape r sh x = true ->
    flatten r (fst (randn_like_gen r x g)) = map (normal g) (seq 0 (numel sh)) /\
    (forall k, normal (snd (randn_like_gen r x g)) k = normal g (numel sh + k)%nat).
Proof.
  induction r as [|r IH]; intros sh x g Hs.
  - destruct sh; [|discriminate]. split; reflexivity.
  - destruct sh as [|d sh]; [discriminate|].
    change (tensor R (S r)) with (list (tensor R r)) in x.
    apply has_shape_cons in Hs. destruct Hs as [Hl He].
    change (randn_like_gen (S r) x g) with (draws_like (randn_like_gen r) x g).
    change (numel (d :: sh)) with (d * numel sh)%nat. rewrite <- Hl.
    apply (draws_like_flat r (numel sh) x).
    intros e g' Hin. apply IH. now apply He.
Qed.

(* ================================================================= *)
(** ** The loop of [sample] *)




(** [reversed(range(1, T))] is [T-1, T-2, ..., 1]. *)
Lemma reversed_range (T : Z) :
  reversed (range 1 T) =
  map (fun k => (T - 1 - Z.of_nat k)%Z) (seq 0 (Z.to_nat (T - 1))).
Proof.
  unfold reversed.
  apply nth_ext with (d := 0%Z) (d' := 0%Z).
  - now rewrite length_rev, range_length, length_map, length_seq.
  - intros k Hk. rewrite length_rev, range_length in Hk.
    rewrite rev_nth by now rewrite range_length.
    rewrite range_length, range_nth by lia.
    rewrite nth_map_in with (da := O) by now rewrite length_seq.
    rewrite seq_nth by assumption. lia.
Qed.

Lemma sample_timesteps_length (d : Diffusion) :
  length (sample_timesteps d) = Z.to_nat (noise_steps d - 1).
Proof.
  unfold sample_timesteps. now rewrite reversed_range, length_map, length_seq.
Qed.



(* ================================================================= *)
(** ** Forward noising *)

Lemma noise_images_unfold (d : Diffusion) (x_0 : tensor R 4) (t : tensor Z 1) (w : World) :
  noise_images d x_0 t w =
  match index (alpha_hat d) t with
  | Raise ex => (Raise ex, w)
  | Ok ah =>
      let epsilon := fst (randn_like_gen 4 x_0 (gen w)) in
      let w' := {| training := training w; grad_enabled := grad_enabled w;
                   gen := snd (randn_like_gen 4 x_0 (gen w)) |} in
      ((signal <- tbin 4 Rmult (unsqueeze3 (tmap 1 sqrt ah)) x_0 ;;
        noise <- tbin 4 Rmult
                   (unsqueeze3 (tmap 1 sqrt (tmap 1 (fun v => 1 - v) ah))) epsilon ;;
        x_t <- tbin 4 Rplus signal noise ;;
        Ok (x_t, epsilon))%res, w')
  end.
Proof.
  unfold noise_images. unfold mbind at 1. unfold lift at 1.
  destruct (index (alpha_hat d) t) as [ah|ex]; [|reflexivity].
  unfold mbind at 1. unfold lift at 1.
  unfold mbind at 1. unfold randn_like, with_gen.
  destruct (randn_like_gen 4 x_0 (gen w)) as [eps g']. cbv zeta. simpl fst. simpl snd.
  unfold mbind, lift, ret.
  destruct (tbin 4 Rmult (unsqueeze3 (tmap 1 sqrt ah)) x_0); [|reflexivity].
  cbn [rbind].
  destruct (tbin 4 Rmult _ eps); [|reflexivity]. cbn [rbind].
  destruct (tbin 4 Rplus _ _); reflexivity.
Qed.

(** Forward noising for timesteps that the schedule lookup accepts, that
    is timesteps of [-T, T): a negative one addresses the schedule from its
    end. *)
Lemma noise_images_run (T : Z) (bs be : R) (s : nat) (d : Diffusion)
  (n c h k : nat) (x0 : tensor R 4) (t : tensor Z 1) (w : World) :
  __init__ T bs be s = Ok d ->
  has_shape 4 [n; c; h; k] x0 = true ->
  length t = n ->
  Forall (fun ti => (- T <= ti < T)%Z) t ->
  exists x_t epsilon w',
    noise_images d x0 t w = (Ok (x_t, epsilon), w') /\
    has_shape 4 [n; c; h; k] x_t = true /\
    has_shape 4 [n; c; h; k] epsilon = true /\
    flatten 4 epsilon = map (normal (gen w)) (seq 0 (numel [n; c; h; k])) /\
    (forall m, normal (gen w') m = normal (gen w) (numel [n; c; h; k] + m)%nat) /\
    training w' = training w /\
    forall b j p q, (b < n)%nat -> (j < c)%nat -> (p < h)%nat -> (q < k)%nat ->
      entry x_t b j p q =
      sqrt (at_ (alpha_hat d) (Z.to_nat (wrap_index T (nth b t 0%Z)))) * entry x0 b j p q
      + sqrt (1 - at_ (alpha_hat d) (Z.to_nat (wrap_index T (nth b t 0%Z))))
        * entry epsilon b j p q.
Proof.
  intros Hd Hx Hlt Ht.
  destruct (init_lengths _ _ _ _ _ Hd) as (_ & _ & Hlah).
  assert (HT0 : (0 <= T)%Z).
  { destruct (Z.le_gt_cases 0 T) as [|Hneg]; [assumption|].
    destruct (init_inv _ _ _ _ _ Hd) as (Hl & _).
    rewrite linspace_negative in Hl by lia. discriminate. }
  assert (HlenT : Z.of_nat (length (alpha_hat d)) = T) by (rewrite Hlah; lia).
  assert (Hidx : index (alpha_hat d) t =
                 Ok (map (fun ti => at_ (alpha_hat d) (Z.to_nat (wrap_index T ti))) t)).
  { rewrite index_wrapped.
    - f_equal. apply map_ext. intros ti. now rewrite HlenT.
    - eapply Forall_impl; [|exact Ht]. intros ti Hti. simpl in Hti. lia. }
  remember (map (fun ti => at_ (alpha_hat d) (Z.to_nat (wrap_index T ti))) t) as ah eqn:Hah.
  set (eps := fst (randn_like_gen 4 x0 (gen w))).
  assert (Heps : has_shape 4 [n; c; h; k] eps = true) by now apply randn_like_shape.
  assert (Hlah' : length ah = n) by (rewrite Hah; now rewrite length_map).
  pose proof (unsqueeze3_entries (tmap 1 sqrt ah)) as Ta.
  pose proof (unsqueeze3_entries (tmap 1 sqrt (tmap 1 (fun v => 1 - v) ah))) as Tb.
  change (tmap 1 sqrt ah) with (map sqrt ah) in *.
  change (tmap 1 sqrt (tmap 1 (fun v => 1 - v) ah))
    with (map sqrt (map (fun v => 1 - v) ah)) in *.
  rewrite length_map, Hlah' in Ta.
  rewrite 2!length_map, Hlah' in Tb.
  destruct (tbin_per_sample Rmult _ _ _ _ _ _ _ _ Ta (tensor_entries 4 _ x0 Hx))
    as (signal & Es & Ts).
  destruct (tbin_per_sample Rmult _ _ _ _ _ _ _ _ Tb (tensor_entries 4 _ eps Heps))
    as (noise & En & Tn).
  destruct (tbin_same_shape Rplus _ _ _ _ _ _ Ts Tn) as (x_t & Ex & [Hs Hg]).
  destruct (randn_like_flat 4 _ x0 (gen w) Hx) as [Hflat Hadv].
  exists x_t, eps. eexists. split.
  - rewrite noise_images_unfold, Hidx. cbv zeta.
    change (tmap 1 sqrt ah) with (map sqrt ah).
    change (tmap 1 sqrt (tmap 1 (fun v => 1 - v) ah))
      with (map sqrt (map (fun v => 1 - v) ah)).
    fold eps. rewrite Es. cbn [rbind]. rewrite En. cbn [rbind].
    rewrite Ex. cbn [rbind]. reflexivity.
  - split; [exact Hs|]. split; [exact Heps|]. split; [exact Hflat|].
    split; [exact Hadv|]. split; [reflexivity|].
    intros b j p q Hb Hj Hp Hq. unfold entry.
    rewrite Hg by (simpl; auto). simpl nth.
    rewrite !at_map by (rewrite ?length_map; lia).
    assert (Hb' : at_ ah b = at_ (alpha_hat d) (Z.to_nat (wrap_index T (nth b t 0%Z)))).
    { rewrite Hah. unfold at_ at 1.
      rewrite nth_map_in with (da := 0%Z) by lia. reflexivity. }
    now rewrite Hb'.
Qed.

(** C3.  For a clean batch [x0] of shape [(n, c, h, k)] and [n] timesteps,
    each in [0, T), forward noising returns [(x_t, epsilon)]: [epsilon] has
    the shape of [x0] and is made of the generator's next normal draws, one
    per entry, and
    [x_t[i] = sqrt(alpha_hat[t_i]) * x0[i] + sqrt(1 - alpha_hat[t_i]) * epsilon[i]]
    at every entry of sample [i], with that very [epsilon]. *)
Theorem noise_images_spec (T : Z) (bs be : R) (s : nat) (d : Diffusion)
  (n c h k : nat) (x0 : tensor R 4) (t : tensor Z 1) (w : World) :
  __init__ T bs be s = Ok d ->
  has_shape 4 [n; c; h; k] x0 = true ->
  length t = n ->
  Forall (fun ti => (0 <= ti < T)%Z) t ->
  exists x_t epsilon w',
    noise_images d x0 t w = (Ok (x_t, epsilon), w') /\
    has_shape 4 [n; c; h; k] x_t = true /\
    has_shape 4 [n; c; h; k] epsilon = true /\
    flatten 4 epsilon = map (normal (gen w)) (seq 0 (numel [n; c; h; k])) /\
    (forall m, normal (gen w') m = normal (gen w) (numel [n; c; h; k] + m)%nat) /\
    training w' = training w /\
    forall b j p q, (b < n)%nat -> (j < c)%nat -> (p < h)%nat -> (q < k)%nat ->
      entry x_t b j p q =
      sqrt (at_ (alpha_hat d) (Z.to_nat (nth b t 0%Z))) * entry x0 b j p q
      + sqrt (1 - at_ (alpha_hat d) (Z.to_nat (nth b t 0%Z))) * entry epsilon b j p q.
Proof.
  intros Hd Hx Hlt Ht.
  destruct (noise_images_run T bs be s d n c h k x0 t w Hd Hx Hlt) as
    (x_t & eps & w' & Hrun & Hs & Heps & Hflat & Hadv & Htr & Hent).
  { eapply Forall_impl; [|exact Ht]. intros ti Hti. simpl in Hti. lia. }
  exists x_t, eps, w'. repeat (split; [assumption|]).
  intros b j p q Hb Hj Hp Hq. rewrite (Hent b j p q Hb Hj Hp Hq).
  assert (Hw : wrap_index T (nth b t 0%Z) = nth b t 0%Z).
  { rewrite Forall_forall in Ht.
    assert (Hin : In (nth b t 0%Z) t) by (apply nth_In; lia).
    specialize (Ht _ Hin). unfold wrap_index.
    destruct (Z.ltb_spec (nth b t 0%Z) 0); [lia|reflexivity]. }
  now rewrite Hw.
Qed.


Lemma noise_images_spec_witness :
  exists d x_t epsilon w',
    __init__ 10 (1/10) (1/5) 1 = Ok d /\
    noise_images d [[[[1]]]] [3%Z] world0 = (Ok (x_t, epsilon), w').
Proof.
  eexists.
  destruct (noise_images_spec 10 (1/10) (1/5) 1 _ 1 1 1 1 [[[[1]]]] [3%Z] world0
              eq_refl eq_refl eq_refl
              ltac:(repeat constructor; lia)) as (x_t & eps & w' & H & _).
  exists x_t, eps, w'. split; [reflexivity|exact H].
Defined.

(** C6 (as amended).  A timestep outside [-T, T) makes forward noising
    raise the index error of the schedule lookup, before any noise is
    drawn; timesteps of [-T, 0) are not rejected: they address the schedule
    from its end, [t_i] standing for [t_i + T]. *)
Theorem noise_images_timestep_bounds (T : Z) (bs be : R) (s : nat) (d : Diffusion)
  (x0 : tensor R 4) (t : tensor Z 1) (w : World) :
  __init__ T bs be s = Ok d ->
  ((exists ti, In ti t /\ (ti < - T \/ T <= ti)%Z) ->
   noise_images d x0 t w = (Raise IndexError, w)) /\
  (forall n c h k,
     has_shape 4 [n; c; h; k] x0 = true -> length t = n ->
     Forall (fun ti => (- T <= ti < T)%Z) t ->
     exists x_t epsilon w',
       noise_images d x0 t w = (Ok (x_t, epsilon), w') /\
       forall b j p q, (b < n)%nat -> (j < c)%nat -> (p < h)%nat -> (q < k)%nat ->
         entry x_t b j p q =
         sqrt (at_ (alpha_hat d) (Z.to_nat (wrap_index T (nth b t 0%Z))))
         * entry x0 b j p q
         + sqrt (1 - at_ (alpha_hat d) (Z.to_nat (wrap_index T (nth b t 0%Z))))
           * entry epsilon b j p q).
Proof.
  intros Hd. split.
  - intros (ti & Hin & Hti).
    destruct (init_lengths _ _ _ _ _ Hd) as (_ & _ & Hlah).
    assert (HT0 : (0 <= T)%Z).
    { destruct (Z.le_gt_cases 0 T) as [|Hneg]; [assumption|].
      destruct (init_inv _ _ _ _ _ Hd) as (Hl & _).
      rewrite linspace_negative in Hl by lia. discriminate. }
    rewrite noise_images_unfold, index_out_of_range; [reflexivity|].
    exists ti. split; [exact Hin|]. rewrite Hlah. lia.
  - intros n c h k Hx Hlt Ht.
    destruct (noise_images_run T bs be s d n c h k x0 t w Hd Hx Hlt Ht) as
      (x_t & eps & w' & Hrun & _ & _ & _ & _ & _ & Hent).
    exists x_t, eps, w'. split; assumption.
Qed.

Lemma noise_images_timestep_bounds_witness :
  exists d, __init__ 2 (1/10) (1/5) 1 = Ok d /\
    noise_images d [[[[1]]]] [5%Z] world0 = (Raise IndexError, world0).
Proof.
  eexists. split; [reflexivity|].
  apply (noise_images_timestep_bounds 2 (1/10) (1/5) 1 _ [[[[1]]]] [5%Z] world0 eq_refl).
  exists 5%Z. split; [now left | lia].
Defined.

(** C6, the claim as written fails: the timestep [-1] lies outside [0, T),
    yet a noised sample is returned, computed with the last entry
    [alpha_hat[1] = 18/25] of the schedule. *)
Lemma noise_images_accepts_negative_timestep :
  exists d x_t epsilon w',
    __init__ 2 (1/10) (1/5) 1 = Ok d /\
    noise_images d [[[[1]]]] [(-1)%Z] world0 = (Ok (x_t, epsilon), w') /\
    at_ (alpha_hat d) 1 = 18/25 /\
    entry x_t 0 0 0 0 = sqrt (18/25).
Proof.
  do 4 eexists. split; [reflexivity|]. split; [evaluate; reflexivity|].
  split; evaluate.
  - field.
  - match goal with
    | |- sqrt ?a * 1 + sqrt ?b * 0 = _ => replace a with (18/25) by field
    end.
    lra.
Qed.

(* ================================================================= *)
(** ** The whole of [sample] *)

Lemma draws_spec {A S} (f : S -> A * S) (P : A -> Prop) (n : nat) :
  (forall s, P (fst (f s))) ->
  forall s, length (fst (draws n f s)) = n /\
            forall z, In z (fst (draws n f s)) -> P z.
Proof.
  intros Hf. induction n as [|n IH]; intros s; simpl.
  - split; [reflexivity|]. intros z [].
  - pose proof (Hf s) as Hs. destruct (f s) as [a s1]. simpl in Hs.
    destruct (IH s1) as [Hl Hz]. destruct (draws n f s1) as [l s2]. simpl in *.
    split; [now rewrite Hl|]. intros z [<-|Hin]; auto.
Qed.

Lemma randn_shape (sh : list nat) (g : Generator) :
  has_shape (length sh) sh (fst (randn_gen sh g)) = true.
Proof.
  revert g. induction sh as [|d sh IH]; intros g; [reflexivity|].
  change (randn_gen (d :: sh) g) with (draws d (randn_gen sh) g).
  destruct (draws_spec (randn_gen sh)
              (fun z => has_shape (length sh) sh z = true) d IH g) as [Hl Hz].
  apply (proj2 (has_shape_cons (length sh) d sh _)). split; [exact Hl|exact Hz].
Qed.

(** The world in which the loop of [sample] starts, and the first [x]. *)
Lemma sample_unfold (d : Diffusion) (model : Predictor) (n : nat) (w : World) :
  sample d model n w =
  let x0 := fst (randn_gen [n; 3; img_size d; img_size d]%nat (gen w)) in
  let w0 := {| training := false; grad_enabled := false;
               gen := snd (randn_gen [n; 3; img_size d; img_size d]%nat (gen w)) |} in
  match for_each (sample_timesteps d) (sample_step d model n) x0 w0 with
  | (Ok x, w1) =>
      (Ok (postprocess x),
       {| training := true; grad_enabled := grad_enabled w; gen := gen w1 |})
  | (Raise e, w1) =>
      (Raise e,
       {| training := training w1; grad_enabled := grad_enabled w; gen := gen w1 |})
  end.
Proof.
  unfold sample. unfold mbind at 1. unfold eval, set_training.
  unfold mbind at 1. unfold no_grad. cbn [training grad_enabled gen].
  unfold mbind at 1. unfold randn, with_gen. cbn [gen training grad_enabled].
  destruct (randn_gen [n; 3; img_size d; img_size d]%nat (gen w)) as [x0 g0].
  cbv zeta. cbn [fst snd].
  destruct (for_each (sample_timesteps d) (sample_step d model n) x0 _) as [[x|e] w1];
    reflexivity.
Qed.




Lemma sample_step_modes (d : Diffusion) (model : Predictor) (n : nat) (i : Z)
  (x : tensor R 4) (w : World) :
  training (snd (sample_step d model n i x w)) = training w /\
  grad_enabled (snd (sample_step d model n i x w)) = grad_enabled w.
Proof.
  rewrite sample_step_unfold.
  destruct (forward model (training w) x (repeat i n)); [|split; reflexivity].
  destruct (index (alpha d) (repeat i n)); [|split; reflexivity].
  destruct (index (alpha_hat d) (repeat i n)); [|split; reflexivity].
  destruct (index (beta d) (repeat i n)); [|split; reflexivity].
  apply step_world_modes.
Qed.

Lemma for_each_modes (d : Diffusion) (model : Predictor) (n : nat) (l : list Z) :
  forall (x : tensor R 4) (w : World),
    training (snd (for_each l (sample_step d model n) x w)) = training w /\
    grad_enabled (snd (for_each l (sample_step d model n) x w)) = grad_enabled w.
Proof.
  induction l as [|i l IH]; intros x w; [split; reflexivity|].
  cbn [for_each]. unfold mbind.
  pose proof (sample_step_modes d model n i x w) as Hs.
  destruct (sample_step d model n i x w) as [[x1|e] w1]; cbn [snd] in Hs; [|exact Hs].
  destruct (IH x1 w1) as [H1 H2]. destruct Hs as [H3 H4].
  split; [exact (eq_trans H1 H3) | exact (eq_trans H2 H4)].
Qed.

(** The loop keeps the shape of the batch when the predictor does. *)
Lemma for_each_shape (d : Diffusion) (model : Predictor) (n c h k : nat) (l : list Z) :
  (forall b x t e, has_shape 4 [n; c; h; k] x = true ->
                   forward model b x t = Ok e -> has_shape 4 [n; c; h; k] e = true) ->
  forall (x x' : tensor R 4) (w w' : World),
    has_shape 4 [n; c; h; k] x = true ->
    for_each l (sample_step d model n) x w = (Ok x', w') ->
    has_shape 4 [n; c; h; k] x' = true.
Proof.
  intros Hc. induction l as [|i l IH]; intros x x' w w' Hx H; simpl in H.
  - unfold ret in H. injection H as <- <-. exact Hx.
  - unfold mbind in H.
    destruct (sample_step d model n i x w) as [[x1|e] w1] eqn:Hs; [|discriminate].
    destruct (sample_step_shape d model n c h k i x x1 w w1 Hx
                (fun e He => Hc _ _ _ e Hx He) Hs) as [Hx1 _].
    exact (IH x1 x' w1 w' Hx1 H).
Qed.

(** With a schedule of [T] entries, timesteps inside it and a predictor
    that returns a prediction of the batch's shape, the loop returns. *)
Lemma for_each_returns (d : Diffusion) (model : Predictor) (n c h k : nat) (l : list Z) :
  (forall b x t, has_shape 4 [n; c; h; k] x = true ->
     exists e, forward model b x t = Ok e /\ has_shape 4 [n; c; h; k] e = true) ->
  Forall (fun i => 0 <= i < Z.of_nat (length (alpha d)) /\
                   0 <= i < Z.of_nat (length (alpha_hat d)) /\
                   0 <= i < Z.of_nat (length (beta d)))%Z l ->
  forall (x : tensor R 4) (w : World),
    has_shape 4 [n; c; h; k] x = true ->
    exists x' w', for_each l (sample_step d model n) x w = (Ok x', w').
Proof.
  intros Hm. induction 1 as [|i l (Ha & Hah & Hb) Hl IH]; intros x w Hx; simpl.
  - unfold ret. eauto.
  - destruct (Hm (training w) x (repeat i n) Hx) as (e & Hf & He).
    destruct (sample_step_ok d model n c h k i x e w Hx Hf He Ha Hah Hb)
      as (x1 & Hs & Hx1 & _).
    unfold mbind. rewrite Hs. apply IH. exact Hx1.
Qed.

Lemma sample_timesteps_bounds (d : Diffusion) :
  Forall (fun i => 1 <= i <= noise_steps d - 1)%Z (sample_timesteps d).
Proof.
  unfold sample_timesteps. rewrite reversed_range.
  apply Forall_forall. intros i Hi. apply in_map_iff in Hi.
  destruct Hi as (k & <- & Hk). apply in_seq in Hk. lia.
Qed.

Lemma sample_returns (T : Z) (bs be : R) (s : nat) (d : Diffusion)
  (model : Predictor) (n : nat) (w : World) :
  __init__ T bs be s = Ok d ->
  (forall b x t, has_shape 4 [n; 3; s; s]%nat x = true ->
     exists e, forward model b x t = Ok e /\ has_shape 4 [n; 3; s; s]%nat e = true) ->
  exists r w', sample d model n w = (Ok r, w').
Proof.
  intros Hd Hm.
  destruct (init_inv _ _ _ _ _ Hd) as (_ & HT & _ & _ & Hs & _).
  destruct (init_lengths _ _ _ _ _ Hd) as (Hlb & Hla & Hlah).
  rewrite sample_unfold, Hs. cbv zeta.
  destruct (for_each_returns d model n 3 s s (sample_timesteps d) Hm) with
    (x := fst (randn_gen [n; 3; s; s]%nat (gen w)))
    (w := {| training := false; grad_enabled := false;
             gen := snd (randn_gen [n; 3; s; s]%nat (gen w)) |})
    as (x' & w' & Hrun).
  - eapply Forall_impl; [|apply sample_timesteps_bounds].
    intros i Hi. simpl in Hi. rewrite Hlb, Hla, Hlah, HT in *. lia.
  - apply (randn_shape [n; 3; s; s]%nat).
  - rewrite Hrun. eauto.
Qed.

Lemma zero_predictor_shape (sh : list nat) (b : bool) (x : tensor R 4) (t : tensor Z 1) :
  has_shape 4 sh x = true ->
  exists e, forward zero_predictor b x t = Ok e /\ has_shape 4 sh e = true.
Proof.
  intros Hx. eexists. split; [reflexivity|].
  unfold zeros_like. now rewrite tmap_shape.
Qed.

Lemma zero_predictor_contract (sh : list nat) (b : bool) (x : tensor R 4)
  (t : tensor Z 1) (e : tensor R 4) :
  has_shape 4 sh x = true -> forward zero_predictor b x t = Ok e ->
  has_shape 4 sh e = true.
Proof.
  intros Hx He. simpl in He. injection He as <-.
  unfold zeros_like. now rewrite tmap_shape.
Qed.

(** The modes in which [sample] leaves the world. *)
Lemma sample_final_world (d : Diffusion) (model : Predictor) (n : nat)
  (w w' : World) (r : result (tensor Z 4)) :
  sample d model n w = (r, w') ->
  training w' = match r with Ok _ => true | Raise _ => false end /\
  grad_enabled w' = grad_enabled w.
Proof.
  rewrite sample_unfold. cbv zeta.
  match goal with
  | |- context [for_each ?l ?body ?x ?w0] =>
      pose proof (for_each_modes d model n l x w0) as Hm;
      destruct (for_each l body x w0) as [[x1|e] w1]
  end; cbn [snd training] in Hm; intros H; injection H as <- <-.
  - split; reflexivity.
  - split; [apply Hm|reflexivity].
Qed.

(** C4 (as amended).  When [sample] returns normally the predictor is in
    training mode, whatever its mode was before the call; when the predictor
    raises inside the loop the error reaches the caller with the predictor
    still in evaluation mode.  The gradient mode, for its part, is the one
    of before the call on both paths. *)
Theorem sample_predictor_mode (d : Diffusion) (model : Predictor) (n : nat) (w : World) :
  (forall r w', sample d model n w = (Ok r, w') ->
     training w' = true /\ grad_enabled w' = grad_enabled w) /\
  (forall e w', sample d model n w = (Raise e, w') ->
     training w' = false /\ grad_enabled w' = grad_enabled w).
Proof.
  split; intros r w' H; apply (sample_final_world d model n w w' _ H).
Qed.

(** C4, the claim as written fails on both paths: a predictor in training
    mode that raises is left in evaluation mode, and a predictor in
    evaluation mode is left in training mode by a call that returns. *)
Lemma sample_does_not_restore_mode :
  exists d, __init__ 2 (1/10) (1/5) 1 = Ok d /\
    (exists w', sample d failing_predictor 1 world0 = (Raise (ModelError 0), w') /\
       training world0 = true /\ training w' = false) /\
    (exists r w', sample d zero_predictor 1 world_eval = (Ok r, w') /\
       training world_eval = false /\ training w' = true).
Proof.
  eexists. split; [reflexivity|]. split.
  - eexists. split; [evaluate; reflexivity|]. split; reflexivity.
  - match goal with
    | |- exists r w', sample ?d _ _ _ = _ /\ _ =>
        destruct (sample_returns 2 (1/10) (1/5) 1 d zero_predictor 1 world_eval eq_refl
                    (zero_predictor_shape [1; 3; 1; 1]%nat)) as (r & w' & H)
    end.
    exists r, w'. split; [exact H|]. split; [reflexivity|].
    apply (sample_final_world _ _ _ _ _ _ H).
Qed.

(* ================================================================= *)
(** ** Post-processing *)

Lemma clamp_unit_range (v : R) : -1 <= Rmin (Rmax v (-1)) 1 <= 1.
Proof.
  unfold Rmin, Rmax.
  destruct (Rle_dec v (-1)); destruct (Rle_dec _ 1); lra.
Qed.

Lemma to_uint8_in_range (v : R) :
  0 <= v <= 255 -> to_uint8 v = Int_part v /\ (0 <= Int_part v <= 255)%Z.
Proof.
  intros [H0 H255]. unfold to_uint8, trunc.
  destruct (Rle_dec 0 v) as [_|Hn]; [|contradiction].
  destruct (base_Int_part v) as [Hle Hgt].
  assert (Hlo : (0 <= Int_part v)%Z).
  { apply Z.lt_succ_r. apply lt_IZR. rewrite succ_IZR. lra. }
  assert (Hhi : (Int_part v <= 255)%Z) by (apply le_IZR; lra).
  split; [|lia]. apply Z.mod_small. lia.
Qed.

Lemma to_uint8_bounds (v : R) : (0 <= to_uint8 v <= 255)%Z.
Proof.
  unfold to_uint8. pose proof (Z.mod_pos_bound (trunc v) 256 ltac:(lia)). lia.
Qed.

Lemma flatten_tmap {A B} (f : A -> B) (r : nat) (x : tensor A r) :
  flatten r (tmap r f x) = map f (flatten r x).
Proof.
  induction r as [|r IH]; [reflexivity|].
  change (tensor A (S r)) with (list (tensor A r)) in x.
  change (tmap (S r) f x) with (map (tmap r f) x).
  change (flatten (S r) (map (tmap r f) x : tensor B (S r)))
    with (flat_map (flatten r) (map (tmap r f) x)).
  change (flatten (S r) (x : tensor A (S r))) with (flat_map (flatten r) x).
  induction x as [|e x IHx]; [reflexivity|].
  simpl. now rewrite map_app, IH, IHx.
Qed.

(** The pixel that post-processing makes of a real value. *)
Lemma postprocess_entries (n c h k : nat) (x : tensor R 4) :
  has_shape 4 [n; c; h; k] x = true ->
  has_shape 4 [n; c; h; k] (postprocess x) = true /\
  Forall (fun v => (0 <= v <= 255)%Z) (flatten 4 (postprocess x)) /\
  forall b j p q, (b < n)%nat -> (j < c)%nat -> (p < h)%nat -> (q < k)%nat ->
    tget 4 0%Z [b; j; p; q] (postprocess x) =
      Int_part ((Rmin (Rmax (entry x b j p q) (-1)) 1 + 1) / 2 * 255) /\
    (0 <= tget 4 0%Z [b; j; p; q] (postprocess x) <= 255)%Z.
Proof.
  intros Hx. unfold postprocess, clamp. split; [now rewrite !tmap_shape|]. split.
  - rewrite flatten_tmap. apply Forall_forall. intros v Hv.
    apply in_map_iff in Hv. destruct Hv as (u & <- & _). apply to_uint8_bounds.
  - intros b j p q Hb Hj Hp Hq.
    assert (Hin : in_bounds [n; c; h; k] [b; j; p; q]) by (simpl; auto).
    rewrite (tmap_get to_uint8 0 0%Z 4 [n; c; h; k]);
      [|now rewrite !tmap_shape|exact Hin].
    rewrite (tmap_get (fun v => v * 255) 0 0 4 [n; c; h; k]);
      [|now rewrite !tmap_shape|exact Hin].
    rewrite (tmap_get (fun v => (v + 1) / 2) 0 0 4 [n; c; h; k]);
      [|now rewrite !tmap_shape|exact Hin].
    rewrite (tmap_get (fun v => Rmin (Rmax v (-1)) 1) 0 0 4 [n; c; h; k]);
      [|exact Hx|exact Hin].
    fold (entry x b j p q).
    pose proof (clamp_unit_range (entry x b j p q)) as Hc.
    destruct (to_uint8_in_range ((Rmin (Rmax (entry x b j p q) (-1)) 1 + 1) / 2 * 255))
      as [He Hr]; [lra|].
    rewrite He. split; [reflexivity|exact Hr].
Qed.

(** C7.  When [sample] returns, with a predictor whose predictions have
    the shape of the batch, the result is the last [x] of the loop, clamped
    to [-1, 1], mapped by [(x+1)/2], scaled by 255 and truncated to an
    unsigned 8-bit integer: a batch of shape [(n, 3, img_size, img_size)]
    whose values all lie in [0, 255]. *)
Theorem sample_output (d : Diffusion) (model : Predictor) (n : nat)
  (w w' : World) (r : tensor Z 4) :
  (forall b x t e,
     has_shape 4 [n; 3; img_size d; img_size d]%nat x = true ->
     forward model b x t = Ok e ->
     has_shape 4 [n; 3; img_size d; img_size d]%nat e = true) ->
  sample d model n w = (Ok r, w') ->
  exists x w1,
    for_each (sample_timesteps d) (sample_step d model n)
      (fst (randn_gen [n; 3; img_size d; img_size d]%nat (gen w)))
      {| training := false; grad_enabled := false;
         gen := snd (randn_gen [n; 3; img_size d; img_size d]%nat (gen w)) |}
    = (Ok x, w1) /\
    r = postprocess x /\
    has_shape 4 [n; 3; img_size d; img_size d]%nat r = true /\
    Forall (fun v => (0 <= v <= 255)%Z) (flatten 4 r) /\
    forall b j p q,
      (b < n)%nat -> (j < 3)%nat -> (p < img_size d)%nat -> (q < img_size d)%nat ->
      tget 4 0%Z [b; j; p; q] r =
        Int_part ((Rmin (Rmax (entry x b j p q) (-1)) 1 + 1) / 2 * 255) /\
      (0 <= tget 4 0%Z [b; j; p; q] r <= 255)%Z.
Proof.
  intros Hc. rewrite sample_unfold. cbv zeta.
  match goal with
  | |- context [for_each ?l ?body ?x0 ?w0] =>
      pose proof (randn_shape [n; 3; img_size d; img_size d]%nat (gen w)) as Hx0;
      pose proof (for_each_shape d model n 3 (img_size d) (img_size d) l Hc x0) as Hinv;
      destruct (for_each l body x0 w0) as [[x|e] w1] eqn:Hrun
  end; intros H; [|discriminate].
  injection H as <- <-.
  specialize (Hinv x _ w1 Hx0 Hrun).
  exists x, w1. split; [reflexivity|]. split; [reflexivity|].
  apply (postprocess_entries n 3 (img_size d) (img_size d) x Hinv).
Qed.

Lemma sample_output_witness :
  exists d r w',
    __init__ 2 (1/10) (1/5) 1 = Ok d /\
    sample d zero_predictor 1 world0 = (Ok r, w') /\
    has_shape 4 [1; 3; 1; 1]%nat r = true.
Proof.
  eexists.
  match goal with
  | |- exists r w', __init__ _ _ _ _ = Ok ?d /\ _ =>
      assert (Hd : __init__ 2 (1/10) (1/5) 1 = Ok d) by reflexivity;
      destruct (sample_returns 2 (1/10) (1/5) 1 d zero_predictor 1 world0 Hd
                  (zero_predictor_shape [1; 3; 1; 1]%nat)) as (r & w' & Hrun);
      destruct (sample_output d zero_predictor 1 world0 w' r
                  (zero_predictor_contract [1; 3; 1; 1]%nat) Hrun)
        as (x & w1 & _ & _ & Hs & _)
  end.
  exists r, w'. split; [exact Hd|]. split; [exact Hrun|exact Hs].
Defined.

(* ================================================================= *)
(** ** One forward step followed by one reverse step *)

Lemma reverse_step_algebra (u v p P x0 e : R) :
  u <> 0 -> v <> 0 -> v * v = 1 - P * (u * u) ->
  1 / u * ((p * u * x0 + v * e) - (1 - u * u) / v * e)
  = p * x0 + u * (1 - P) / v * e.
Proof.
  intros Hu Hv H.
  assert (H1 : v - (1 - u * u) / v = u * u * (1 - P) / v).
  { apply Rmult_eq_reg_r with v; [|exact Hv].
    replace ((v - (1 - u * u) / v) * v) with (v * v - (1 - u * u)) by (field; exact Hv).
    replace (u * u * (1 - P) / v * v) with (u * u * (1 - P)) by (field; exact Hv).
    rewrite H. ring. }
  replace (p * u * x0 + v * e - (1 - u * u) / v * e)
    with (p * u * x0 + (v - (1 - u * u) / v) * e) by ring.
  rewrite H1. field. split; assumption.
Qed.

(** The same, with the square roots of the schedule: [a] is [alpha[t]],
    [P] is [alpha_hat[t-1]], so that [alpha_hat[t] = P * a]. *)
Lemma reverse_step_sqrt (a P x0 e : R) :
  0 < a -> 0 <= P -> 0 < 1 - P * a ->
  1 / sqrt a * ((sqrt (P * a) * x0 + sqrt (1 - P * a) * e)
                - (1 - a) / sqrt (1 - P * a) * e)
  = sqrt P * x0 + sqrt a * (1 - P) / sqrt (1 - P * a) * e.
Proof.
  intros Ha HP HA.
  assert (Hu : 0 < sqrt a) by now apply sqrt_lt_R0.
  assert (Hv : 0 < sqrt (1 - P * a)) by now apply sqrt_lt_R0.
  assert (Huu : sqrt a * sqrt a = a) by (apply sqrt_sqrt; lra).
  assert (Hvv : sqrt (1 - P * a) * sqrt (1 - P * a) = 1 - P * a)
    by (apply sqrt_sqrt; lra).
  rewrite sqrt_mult by lra.
  replace (1 - a) with (1 - sqrt a * sqrt a) by (now rewrite Huu).
  apply reverse_step_algebra; try lra.
  rewrite Hvv, Huu. reflexivity.
Qed.

(** What one reverse step makes of a freshly noised batch when the
    predictor returns the very noise that was added. *)
Lemma reverse_step_closed_form (T : Z) (bs be : R) (s : nat) (d : Diffusion)
  (model : Predictor) (n c h k : nat) (t : Z)
  (x0 x_t epsilon : tensor R 4) (w w1 : World) :
  0 < bs -> bs < be -> be < 1 ->
  __init__ T bs be s = Ok d ->
  (1 <= t < T)%Z ->
  has_shape 4 [n; c; h; k] x0 = true ->
  noise_images d x0 (repeat t n) w = (Ok (x_t, epsilon), w1) ->
  forward model (training w1) x_t (repeat t n) = Ok epsilon ->
  exists x',
    sample_step d model n t x_t w1 = (Ok x', step_world n x_t w1) /\
    has_shape 4 [n; c; h; k] x' = true /\
    forall b j p q, (b < n)%nat -> (j < c)%nat -> (p < h)%nat -> (q < k)%nat ->
      entry x' b j p q =
      sqrt (at_ (alpha_hat d) (Z.to_nat (t - 1))) * entry x0 b j p q
      + sqrt (at_ (alpha d) (Z.to_nat t)) * (1 - at_ (alpha_hat d) (Z.to_nat (t - 1)))
        / sqrt (1 - at_ (alpha_hat d) (Z.to_nat t)) * entry epsilon b j p q
      + sqrt (at_ (beta d) (Z.to_nat t)) * entry (step_noise n x_t w1) b j p q.
Proof.
  intros Hbs Hbe Hbe1 Hd Ht Hx0 Hnoise Hf.
  assert (HT : (0 < T)%Z) by lia.
  destruct (init_lengths _ _ _ _ _ Hd) as (Hlb & Hla & Hlah).
  destruct (init_inv _ _ _ _ _ Hd) as (_ & _ & _ & _ & _ & _ & Hah).
  destruct (noise_images_run T bs be s d n c h k x0 (repeat t n) w Hd Hx0
              (repeat_length _ _)) as
    (x_t' & eps' & w' & Hrun & Hxt & Heps & _ & _ & _ & Hent).
  { apply Forall_forall. intros ti Hin. apply repeat_spec in Hin. lia. }
  rewrite Hnoise in Hrun. injection Hrun as <- <- <-.
  destruct (sample_step_ok d model n c h k t x_t epsilon w1 Hxt Hf Heps)
    as (x' & Hstep & Hx' & Hent'); try lia.
  exists x'. split; [exact Hstep|]. split; [exact Hx'|].
  intros b j p q Hb Hj Hp Hq.
  rewrite (Hent' b j p q Hb Hj Hp Hq), (Hent b j p q Hb Hj Hp Hq).
  rewrite nth_repeat_lt by exact Hb.
  assert (Hw : wrap_index T t = t).
  { unfold wrap_index. destruct (Z.ltb_spec t 0); [lia|reflexivity]. }
  rewrite Hw.
  assert (Hsucc : Z.to_nat t = S (Z.to_nat (t - 1))) by lia.
  pose proof (valid_alpha_range T bs be s d HT Hbs Hbe Hbe1 Hd (Z.to_nat t) ltac:(lia)) as Ha.
  pose proof (valid_alpha_hat_range T bs be s d HT Hbs Hbe Hbe1 Hd (Z.to_nat (t - 1))
                ltac:(lia)) as HP.
  pose proof (valid_alpha_hat_range T bs be s d HT Hbs Hbe Hbe1 Hd (Z.to_nat t)
                ltac:(lia)) as HA.
  assert (Hprod : at_ (alpha_hat d) (Z.to_nat t) =
                  at_ (alpha_hat d) (Z.to_nat (t - 1)) * at_ (alpha d) (Z.to_nat t)).
  { rewrite Hah, Hsucc. apply cumprod_succ. lia. }
  rewrite Hprod in *.
  set (a := at_ (alpha d) (Z.to_nat t)) in *.
  set (P := at_ (alpha_hat d) (Z.to_nat (t - 1))) in *.
  rewrite (reverse_step_sqrt a P) by lra.
  reflexivity.
Qed.

(** C8 (as amended).  For a clean batch [x0], a timestep [t] of [1, T) and
    [(x_t, epsilon)] produced by forward noising, if the predictor returns
    exactly that [epsilon], one reverse step applied to [x_t] yields
    [sqrt(alpha_hat[t-1]) * x0
     + sqrt(alpha[t]) * (1 - alpha_hat[t-1]) / sqrt(1 - alpha_hat[t]) * epsilon
     + sqrt(beta[t]) * z]:
    the batch noised to step [t-1] in the mean, not a reconstruction of
    [x0]. *)
Theorem reverse_step_of_forward (T : Z) (bs be : R) (s : nat) (d : Diffusion)
  (model : Predictor) (n c h k : nat) (t : Z)
  (x0 x_t epsilon : tensor R 4) (w w1 : World) :
  0 < bs -> bs < be -> be < 1 ->
  __init__ T bs be s = Ok d ->
  (1 <= t < T)%Z ->
  has_shape 4 [n; c; h; k] x0 = true ->
  noise_images d x0 (repeat t n) w = (Ok (x_t, epsilon), w1) ->
  forward model (training w1) x_t (repeat t n) = Ok epsilon ->
  exists x',
    sample_step d model n t x_t w1 = (Ok x', step_world n x_t w1) /\
    has_shape 4 [n; c; h; k] x' = true /\
    forall b j p q, (b < n)%nat -> (j < c)%nat -> (p < h)%nat -> (q < k)%nat ->
      entry x' b j p q =
      sqrt (at_ (alpha_hat d) (Z.to_nat (t - 1))) * entry x0 b j p q
      + sqrt (at_ (alpha d) (Z.to_nat t)) * (1 - at_ (alpha_hat d) (Z.to_nat (t - 1)))
        / sqrt (1 - at_ (alpha_hat d) (Z.to_nat t)) * entry epsilon b j p q
      + sqrt (at_ (beta d) (Z.to_nat t)) * entry (step_noise n x_t w1) b j p q.
Proof.
  intros Hbs Hbe Hbe1 Hd Ht Hx0 Hnoise Hf.
  exact (reverse_step_closed_form T bs be s d model n c h k t x0 x_t epsilon w w1
           Hbs Hbe Hbe1 Hd Ht Hx0 Hnoise Hf).
Qed.

Lemma reverse_step_of_forward_witness :
  exists d x_t epsilon w1 x',
    __init__ 2 (1/2) (3/4) 1 = Ok d /\
    noise_images d [[[[1]]]] [1%Z] world0 = (Ok (x_t, epsilon), w1) /\
    sample_step d (oracle epsilon) 1 1 x_t w1 = (Ok x', step_world 1 x_t w1).
Proof.
  do 4 eexists.
  match goal with
  | |- exists x', __init__ _ _ _ _ = Ok ?d /\
                  noise_images _ _ _ _ = (Ok (?xt, ?eps), ?w1) /\ _ =>
      assert (Hd : __init__ 2 (1/2) (3/4) 1 = Ok d) by reflexivity;
      assert (Hn : noise_images d [[[[1]]]] (repeat 1%Z 1) world0 = (Ok (xt, eps), w1))
        by (evaluate; reflexivity)
  end.
  match type of Hn with
  | noise_images ?d _ _ _ = (Ok (?xt, ?eps), ?w1) =>
      destruct (reverse_step_of_forward 2 (1/2) (3/4) 1 d (oracle eps) 1 1 1 1 1
                  [[[[1]]]] xt eps world0 w1
                  ltac:(lra) ltac:(lra) ltac:(lra) Hd ltac:(lia) eq_refl Hn eq_refl)
        as (x' & Hstep & _)
  end.
  exists x'. split; [exact Hd|]. split; [exact Hn|exact Hstep].
Defined.

Lemma sqrt_half_lt : sqrt (1/2) < 3/4.
Proof.
  replace (3/4) with (sqrt ((3/4) * (3/4))) by (apply sqrt_square; lra).
  apply sqrt_lt_1_alt. lra.
Qed.

(** C8, the claim as written fails: with [T = 2], [beta] from 1/2 to 3/4,
    [x0 = 1] and a noise draw of 0, the reverse step at [t = 1] with the
    exact noise yields [sqrt(1/2)], further than 1/4 from [x0]. *)
Lemma reverse_step_does_not_reconstruct :
  exists d x_t epsilon w1 x' w2,
    __init__ 2 (1/2) (3/4) 1 = Ok d /\
    noise_images d [[[[1]]]] [1%Z] world0 = (Ok (x_t, epsilon), w1) /\
    sample_step d (oracle epsilon) 1 1 x_t w1 = (Ok x', w2) /\
    entry [[[[1]]]] 0 0 0 0 = 1 /\
    entry x' 0 0 0 0 = sqrt (1/2) /\
    entry x' 0 0 0 0 < 3/4.
Proof.
  do 4 eexists.
  match goal with
  | |- exists x' w2, __init__ _ _ _ _ = Ok ?d /\
                     noise_images _ _ _ _ = (Ok (?xt, ?eps), ?w1) /\ _ =>
      assert (Hd : __init__ 2 (1/2) (3/4) 1 = Ok d) by reflexivity;
      assert (Hn : noise_images d [[[[1]]]] (repeat 1%Z 1) world0 = (Ok (xt, eps), w1))
        by (evaluate; reflexivity)
  end.
  match type of Hn with
  | noise_images ?d _ _ _ = (Ok (?xt, ?eps), ?w1) =>
      destruct (reverse_step_closed_form 2 (1/2) (3/4) 1 d (oracle eps) 1 1 1 1 1
                  [[[[1]]]] xt eps world0 w1
                  ltac:(lra) ltac:(lra) ltac:(lra) Hd ltac:(lia) eq_refl Hn eq_refl)
        as (x' & Hstep & _ & Hent)
  end.
  specialize (Hent 0 0 0 0 ltac:(lia) ltac:(lia) ltac:(lia) ltac:(lia))%nat.
  assert (Hval : entry x' 0 0 0 0 = sqrt (1/2)).
  { rewrite Hent. evaluate.
    match goal with
    | |- sqrt ?a * 1 + _ * 0 + _ * 0 = _ => replace a with (1/2) by field
    end.
    lra. }
  exists x'. eexists. split; [exact Hd|]. split; [exact Hn|]. split; [exact Hstep|].
  split; [reflexivity|]. split; [exact Hval|].
  rewrite Hval. exact sqrt_half_lt.
Qed.

(* ================================================================= *)
(** ** Forward noising: batch sizes that differ *)

(** A coefficient of shape [(1, 1, 1, 1)] against a batch. *)
Lemma tbin_one_sample (op : R -> R -> R) (n c h k : nat)
  (x y : tensor R 4) (gx gy : list nat -> R) :
  is_tensor 4 [1; 1; 1; 1]%nat x gx -> is_tensor 4 [n; c; h; k] y gy ->
  exists z, tbin 4 op x y = Ok z /\
    is_tensor 4 [n; c; h; k] z (fun idx => op (gx [0; 0; 0; 0]%nat) (gy idx)).
Proof.
  intros [Hx Hgx] [Hy Hgy].
  assert (Hc : Forall2 compat [1; 1; 1; 1]%nat [n; c; h; k]).
  { repeat (apply Forall2_cons || apply Forall2_nil); unfold compat; auto. }
  destruct (tbin_spec op 0 0 0 4 _ _ x y Hx Hy Hc) as (z & Hz & Hs & He).
  change (bshape [1; 1; 1; 1]%nat [n; c; h; k]) with [n; c; h; k] in Hs, He.
  exists z. split; [exact Hz|]. split; [exact Hs|].
  intros idx Hi. rewrite He by assumption.
  rewrite (bindex_same [n; c; h; k]) by assumption.
  rewrite Hgy by assumption.
  destruct idx as [|i [|j [|p [|q [|]]]]]; simpl in Hi; try tauto.
  f_equal. apply Hgx. simpl. lia.
Qed.

Lemma broadcast_mismatch {A B C} (f : A -> B -> result C) (xs : list A) (ys : list B) :
  length xs <> length ys -> length xs <> 1%nat -> length ys <> 1%nat ->
  broadcast f xs ys = Raise RuntimeError.
Proof.
  intros Hne Hx Hy. unfold broadcast.
  destruct (Nat.eqb_spec (length xs) (length ys)); [contradiction|].
  destruct xs as [|x [|x' xs]]; destruct ys as [|y [|y' ys]];
    simpl in *; try reflexivity; lia.
Qed.

(** X3.  A single timestep is stretched over the whole batch: for [t] of
    length one and a batch of any size, [noise_images] returns a batch of
    that size in which every sample is noised with [alpha_hat[t[0]]]. *)
Theorem noise_images_single_timestep (T : Z) (bs be : R) (s : nat) (d : Diffusion)
  (n c h k : nat) (x0 : tensor R 4) (t0 : Z) (w : World) :
  __init__ T bs be s = Ok d ->
  has_shape 4 [n; c; h; k] x0 = true ->
  (0 <= t0 < T)%Z ->
  exists x_t epsilon w',
    noise_images d x0 [t0] w = (Ok (x_t, epsilon), w') /\
    has_shape 4 [n; c; h; k] x_t = true /\
    has_shape 4 [n; c; h; k] epsilon = true /\
    forall b j p q, (b < n)%nat -> (j < c)%nat -> (p < h)%nat -> (q < k)%nat ->
      entry x_t b j p q =
      sqrt (at_ (alpha_hat d) (Z.to_nat t0)) * entry x0 b j p q
      + sqrt (1 - at_ (alpha_hat d) (Z.to_nat t0)) * entry epsilon b j p q.
Proof.
  intros Hd Hx Ht.
  destruct (init_lengths _ _ _ _ _ Hd) as (_ & _ & Hlah).
  assert (Hidx : index (alpha_hat d) [t0] = Ok [at_ (alpha_hat d) (Z.to_nat t0)]).
  { rewrite index_in_range; [reflexivity|]. constructor; [lia|constructor]. }
  set (A := at_ (alpha_hat d) (Z.to_nat t0)) in *.
  set (eps := fst (randn_like_gen 4 x0 (gen w))).
  assert (Heps : has_shape 4 [n; c; h; k] eps = true) by now apply randn_like_shape.
  pose proof (unsqueeze3_entries [sqrt A]) as Ta.
  pose proof (unsqueeze3_entries [sqrt (1 - A)]) as Tb.
  change (length [sqrt A]) with 1%nat in Ta.
  change (length [sqrt (1 - A)]) with 1%nat in Tb.
  destruct (tbin_one_sample Rmult _ _ _ _ _ _ _ _ Ta (tensor_entries 4 _ x0 Hx))
    as (signal & Es & Ts).
  destruct (tbin_one_sample Rmult _ _ _ _ _ _ _ _ Tb (tensor_entries 4 _ eps Heps))
    as (noise & En & Tn).
  destruct (tbin_same_shape Rplus _ _ _ _ _ _ Ts Tn) as (x_t & Ex & [Hs Hg]).
  exists x_t, eps. eexists. split.
  - rewrite noise_images_unfold, Hidx. cbv zeta.
    change (tmap 1 sqrt [A]) with [sqrt A].
    change (tmap 1 sqrt (tmap 1 (fun v => 1 - v) [A])) with [sqrt (1 - A)].
    fold eps. rewrite Es. cbn [rbind]. rewrite En. cbn [rbind].
    rewrite Ex. cbn [rbind]. reflexivity.
  - split; [exact Hs|]. split; [exact Heps|].
    intros b j p q Hb Hj Hp Hq. unfold entry.
    rewrite Hg by (simpl; auto). reflexivity.
Qed.

Lemma noise_images_single_timestep_witness :
  exists d x_t epsilon w',
    __init__ 10 (1/10) (1/5) 1 = Ok d /\
    noise_images d [[[[1]]]; [[[2]]]] [3%Z] world0 = (Ok (x_t, epsilon), w') /\
    has_shape 4 [2; 1; 1; 1]%nat x_t = true.
Proof.
  eexists.
  destruct (noise_images_single_timestep 10 (1/10) (1/5) 1 _ 2 1 1 1
              [[[[1]]]; [[[2]]]] 3 world0 eq_refl eq_refl ltac:(lia))
    as (x_t & eps & w' & H & Hs & _).
  exists x_t, eps, w'. split; [reflexivity|]. split; [exact H|exact Hs].
Defined.

(** X4.  When the number of timesteps is neither one nor the size of the
    batch (and the batch is not of size one), [noise_images] raises the
    error of the failed broadcast; the lookup has passed and the noise has
    been drawn by then, so the generator has moved on. *)
Theorem noise_images_length_mismatch (T : Z) (bs be : R) (s : nat) (d : Diffusion)
  (n c h k : nat) (x0 : tensor R 4) (t : tensor Z 1) (w : World) :
  __init__ T bs be s = Ok d ->
  has_shape 4 [n; c; h; k] x0 = true ->
  Forall (fun ti => (0 <= ti < T)%Z) t ->
  length t <> n -> length t <> 1%nat -> n <> 1%nat ->
  noise_images d x0 t w =
  (Raise RuntimeError,
   {| training := training w; grad_enabled := grad_enabled w;
      gen := snd (randn_like_gen 4 x0 (gen w)) |}).
Proof.
  intros Hd Hx Ht Hne Ht1 Hn1.
  destruct (init_lengths _ _ _ _ _ Hd) as (_ & _ & Hlah).
  assert (Hidx : index (alpha_hat d) t =
                 Ok (map (fun ti => at_ (alpha_hat d) (Z.to_nat ti)) t)).
  { apply index_in_range. eapply Forall_impl; [|exact Ht].
    intros ti Hti. simpl in Hti. lia. }
  rewrite noise_images_unfold, Hidx. cbv zeta.
  change (tensor R 4) with (list (tensor R 3)) in x0.
  apply has_shape_cons in Hx. destruct Hx as [Hlx _].
  match goal with
  | |- context [tbin 4 Rmult ?a x0] =>
      change (tbin 4 Rmult a x0) with (broadcast (tbin 3 Rmult) a x0);
      rewrite (broadcast_mismatch (tbin 3 Rmult) a x0)
  end.
  - reflexivity.
  - unfold unsqueeze3. change (tmap 1 sqrt) with (map sqrt).
    rewrite !length_map. lia.
  - unfold unsqueeze3. change (tmap 1 sqrt) with (map sqrt).
    rewrite !length_map. lia.
  - lia.
Qed.

Lemma noise_images_length_mismatch_witness :
  exists d w',
    __init__ 10 (1/10) (1/5) 1 = Ok d /\
    noise_images d [[[[1]]]; [[[2]]]] [3%Z; 4%Z; 5%Z] world0 = (Raise RuntimeError, w').
Proof.
  do 2 eexists. split; [reflexivity|].
  apply (noise_images_length_mismatch 10 (1/10) (1/5) 1 _ 2 1 1 1
           [[[[1]]]; [[[2]]]] [3%Z; 4%Z; 5%Z] world0 eq_refl eq_refl);
    [repeat constructor; lia | simpl; lia | simpl; lia | lia].
Defined.

(* ================================================================= *)
(** ** Further properties of [sample] *)

Lemma sample_timesteps_empty (d : Diffusion) :
  (noise_steps d <= 1)%Z -> sample_timesteps d = [].
Proof.
  intros H. unfold sample_timesteps. rewrite reversed_range.
  replace (Z.to_nat (noise_steps d - 1)) with O by lia. reflexivity.
Qed.

Lemma sample_timesteps_first (d : Diffusion) :
  (2 <= noise_steps d)%Z ->
  exists rest, sample_timesteps d = (noise_steps d - 1)%Z :: rest.
Proof.
  intros H. unfold sample_timesteps. rewrite reversed_range.
  destruct (Z.to_nat (noise_steps d - 1)) as [|m] eqn:E; [lia|].
  simpl. eexists. f_equal. lia.
Qed.

(** X5.  With [noise_steps <= 1] the loop of [sample] has no iteration: the
    predictor is never called, and whatever the predictor is, [sample]
    returns the post-processed initial noise and leaves the predictor in
    training mode. *)
Theorem sample_without_steps (d : Diffusion) (model : Predictor) (n : nat) (w : World) :
  (noise_steps d <= 1)%Z ->
  sample d model n w =
  (Ok (postprocess (fst (randn_gen [n; 3; img_size d; img_size d]%nat (gen w)))),
   {| training := true; grad_enabled := grad_enabled w;
      gen := snd (randn_gen [n; 3; img_size d; img_size d]%nat (gen w)) |}).
Proof.
  intros H. rewrite sample_unfold, (sample_timesteps_empty d H). reflexivity.
Qed.

Lemma sample_without_steps_witness :
  exists d r w',
    __init__ 1 (1/10) (1/5) 1 = Ok d /\
    sample d failing_predictor 2 world0 = (Ok r, w').
Proof.
  do 3 eexists. split; [reflexivity|].
  apply sample_without_steps. simpl. lia.
Defined.

(** X6.  With [noise_steps >= 2], an exception raised by the predictor at
    its first call, which is at [t = noise_steps - 1] on the initial noise
    and in evaluation mode, ends [sample] with that same exception: nothing
    is returned, only the initial noise has been drawn, and the predictor
    stays in evaluation mode. *)
Theorem sample_predictor_failure (d : Diffusion) (model : Predictor) (n : nat)
  (w : World) (e : exn) :
  (2 <= noise_steps d)%Z ->
  forward model false
    (fst (randn_gen [n; 3; img_size d; img_size d]%nat (gen w)))
    (repeat (noise_steps d - 1)%Z n) = Raise e ->
  sample d model n w =
  (Raise e,
   {| training := false; grad_enabled := grad_enabled w;
      gen := snd (randn_gen [n; 3; img_size d; img_size d]%nat (gen w)) |}).
Proof.
  intros HT Hf. rewrite sample_unfold. cbv zeta.
  destruct (sample_timesteps_first d HT) as (rest & ->).
  cbn [for_each]. unfold mbind.
  rewrite sample_step_raise with (ex := e) by exact Hf. reflexivity.
Qed.

Lemma sample_predictor_failure_witness :
  exists d w',
    __init__ 3 (1/10) (1/5) 1 = Ok d /\
    sample d failing_predictor 2 world0 = (Raise (ModelError 0), w').
Proof.
  do 2 eexists. split; [reflexivity|].
  apply sample_predictor_failure; [simpl; lia | reflexivity].
Defined.

Lemma for_each_eval_mode (d : Diffusion) (m1 m2 : Predictor) (n : nat) (l : list Z) :
  (forall x t, forward m1 false x t = forward m2 false x t) ->
  forall (x : tensor R 4) (w : World),
    training w = false ->
    for_each l (sample_step d m1 n) x w = for_each l (sample_step d m2 n) x w.
Proof.
  intros Hm. induction l as [|i l IH]; intros x w Hw; [reflexivity|].
  cbn [for_each]. unfold mbind.
  assert (Hs : sample_step d m1 n i x w = sample_step d m2 n i x w).
  { rewrite !sample_step_unfold, Hw, Hm. reflexivity. }
  rewrite Hs.
  pose proof (sample_step_modes d m2 n i x w) as [Ht _].
  destruct (sample_step d m2 n i x w) as [[x1|ex] w1]; [|reflexivity].
  apply IH. cbn [snd] in Ht. congruence.
Qed.

(** X7.  [sample] calls the predictor in evaluation mode only, and the mode
    the predictor was in before the call plays no part: two predictors that
    agree in evaluation mode give the same result and the same final world,
    from worlds that differ in the prior mode only. *)
Theorem sample_uses_evaluation_mode (d : Diffusion) (m1 m2 : Predictor) (n : nat)
  (w : World) (prior : bool) :
  (forall x t, forward m1 false x t = forward m2 false x t) ->
  sample d m1 n w =
  sample d m2 n {| training := prior; grad_enabled := grad_enabled w; gen := gen w |}.
Proof.
  intros Hm. rewrite !sample_unfold. cbv zeta. cbn [gen grad_enabled].
  rewrite (for_each_eval_mode d m1 m2 n (sample_timesteps d) Hm) by reflexivity.
  reflexivity.
Qed.

Lemma sample_uses_evaluation_mode_witness :
  exists d,
    __init__ 3 (1/10) (1/5) 1 = Ok d /\
    sample d zero_predictor 1 world0 =
    sample d {| forward := fun b x t => if b then Raise (ModelError 1)
                                        else Ok (zeros_like 4 x) |} 1 world_eval.
Proof.
  eexists. split; [reflexivity|].
  apply (sample_uses_evaluation_mode _ zero_predictor _ 1 world0 false).
  reflexivity.
Defined.

Lemma draws_flat (r m : nat) (f : Generator -> tensor R r * Generator) :
  (forall g, flatten r (fst (f g)) = map (normal g) (seq 0 m) /\
             (forall k, normal (snd (f g)) k = normal g (m + k)%nat)) ->
  forall (d : nat) (g : Generator),
    flat_map (flatten r) (fst (draws d f g)) = map (normal g) (seq 0 (d * m)) /\
    (forall k, normal (snd (draws d f g)) k = normal g (d * m + k)%nat).
Proof.
  intros Hf. induction d as [|d IH]; intros g.
  - split; reflexivity.
  - destruct (Hf g) as [Hx1 Hx2].
    simpl draws. destruct (f g) as [z g1]. simpl in Hx1, Hx2.
    destruct (IH g1) as [H1 H2].
    destruct (draws d f g1) as [l g2]. simpl in H1, H2.
    simpl fst. simpl snd. split.
    + simpl flat_map. rewrite Hx1, H1.
      change (S d * m)%nat with (m + d * m)%nat.
      rewrite seq_app, map_app. f_equal. simpl.
      rewrite <- (Nat.add_0_r m) at 2. rewrite <- map_seq_shift.
      apply map_ext. intros k. apply Hx2.
    + intros k. rewrite H2, Hx2.
      change (S d * m)%nat with (m + d * m)%nat.
      f_equal. lia.
Qed.

(** [torch.randn(sh)] hands out the next [numel sh] normal draws. *)
Lemma randn_flat (sh : list nat) :
  forall g,
    flatten (length sh) (fst (randn_gen sh g)) = map (normal g) (seq 0 (numel sh)) /\
    (forall k, normal (snd (randn_gen sh g)) k = normal g (numel sh + k)%nat).
Proof.
  induction sh as [|d sh IH]; intros g.
  - split; reflexivity.
  - change (randn_gen (d :: sh) g) with (draws d (randn_gen sh) g).
    change (numel (d :: sh)) with (d * numel sh)%nat.
    apply (draws_flat (length sh) (numel sh) (randn_gen sh) IH d g).
Qed.

Lemma step_world_advance (n c h k : nat) (x : tensor R 4) (w : World) (m : nat) :
  has_shape 4 [n; c; h; k] x = true ->
  normal (gen (step_world n x w)) m =
  normal (gen w) ((if (1 <? n)%nat then numel [n; c; h; k] else 0) + m)%nat.
Proof.
  intros Hx. unfold step_world. destruct (1 <? n)%nat; [|reflexivity].
  cbn [gen]. apply randn_like_flat. exact Hx.
Qed.

Lemma for_each_advance (d : Diffusion) (model : Predictor) (n c h k : nat) (l : list Z) :
  (forall b x t e, has_shape 4 [n; c; h; k] x = true ->
                   forward model b x t = Ok e -> has_shape 4 [n; c; h; k] e = true) ->
  forall (x x' : tensor R 4) (w w' : World),
    has_shape 4 [n; c; h; k] x = true ->
    for_each l (sample_step d model n) x w = (Ok x', w') ->
    forall m, normal (gen w') m =
              normal (gen w)
                (length l * (if (1 <? n)%nat then numel [n; c; h; k] else 0) + m)%nat.
Proof.
  intros Hc. induction l as [|i l IH]; intros x x' w w' Hx H m; simpl in H.
  - unfold ret in H. injection H as <- <-. reflexivity.
  - unfold mbind in H.
    destruct (sample_step d model n i x w) as [[x1|e] w1] eqn:Hs; [|discriminate].
    destruct (sample_step_shape d model n c h k i x x1 w w1 Hx
                (fun e He => Hc _ _ _ e Hx He) Hs) as [Hx1 ->].
    rewrite (IH x1 x' _ w' Hx1 H m).
    rewrite (step_world_advance n c h k x w _ Hx).
    f_equal. simpl length. lia.
Qed.

(** X8.  The noise a call of [sample] consumes, when it returns with a
    predictor whose predictions have the batch's shape: the
    [n * 3 * img_size * img_size] draws of the initial noise, and for
    [n > 1] as many again at each of the [noise_steps - 1] steps; for
    [n = 1] nothing is drawn after the initial noise. *)
Theorem sample_draws (d : Diffusion) (model : Predictor) (n : nat)
  (w w' : World) (r : tensor Z 4) :
  (forall b x t e,
     has_shape 4 [n; 3; img_size d; img_size d]%nat x = true ->
     forward model b x t = Ok e ->
     has_shape 4 [n; 3; img_size d; img_size d]%nat e = true) ->
  sample d model n w = (Ok r, w') ->
  forall m,
    normal (gen w') m =
    normal (gen w)
      (numel [n; 3; img_size d; img_size d]%nat
       * (if (1 <? n)%nat then S (Z.to_nat (noise_steps d - 1)) else 1) + m)%nat.
Proof.
  intros Hc. rewrite sample_unfold. cbv zeta.
  match goal with
  | |- context [for_each ?l ?body ?x0 ?w0] =>
      pose proof (randn_shape [n; 3; img_size d; img_size d]%nat (gen w)) as Hx0;
      pose proof (for_each_advance d model n 3 (img_size d) (img_size d) l Hc x0) as Hadv;
      destruct (for_each l body x0 w0) as [[x|e] w1] eqn:Hrun
  end; intros H m; [|discriminate].
  injection H as <- <-. cbn [gen].
  rewrite (Hadv x _ w1 Hx0 Hrun m). cbn [gen].
  destruct (randn_flat [n; 3; img_size d; img_size d]%nat (gen w)) as [_ Hr].
  rewrite Hr. rewrite sample_timesteps_length.
  f_equal. destruct (1 <? n)%nat; lia.
Qed.

Lemma sample_draws_witness :
  exists d r w',
    __init__ 3 (1/10) (1/5) 1 = Ok d /\
    sample d zero_predictor 2 world0 = (Ok r, w') /\
    normal (gen w') 0 = normal (gen world0) 18.
Proof.
  eexists.
  match goal with
  | |- exists r w', __init__ _ _ _ _ = Ok ?d /\ _ =>
      assert (Hd : __init__ 3 (1/10) (1/5) 1 = Ok d) by reflexivity;
      destruct (sample_returns 3 (1/10) (1/5) 1 d zero_predictor 2 world0 Hd
                  (zero_predictor_shape [2; 3; 1; 1]%nat)) as (r & w' & Hrun);
      pose proof (sample_draws d zero_predictor 2 world0 w' r
                    (zero_predictor_contract [2; 3; 1; 1]%nat) Hrun 0%nat) as Hm
  end.
  exists r, w'. split; [exact Hd|]. split; [exact Hrun|exact Hm].
Defined.

(* ================================================================= *)
(** ** Further properties of the post-processing *)

Lemma int_part_le (a b : R) : a <= b -> (Int_part a <= Int_part b)%Z.
Proof.
  intros H. destruct (base_Int_part a) as [Ha _]. destruct (base_Int_part b) as [_ Hb].
  apply Z.lt_succ_r. apply lt_IZR. rewrite succ_IZR. lra.
Qed.

Lemma clamp_le (u v : R) :
  u <= v -> Rmin (Rmax u (-1)) 1 <= Rmin (Rmax v (-1)) 1.
Proof.
  intros H. unfold Rmin, Rmax.
  destruct (Rle_dec u (-1)); destruct (Rle_dec v (-1));
    repeat match goal with
           | |- context [Rle_dec ?a ?b] => destruct (Rle_dec a b)
           end; lra.
Qed.

Lemma clamp_low (v : R) : v <= -1 -> Rmin (Rmax v (-1)) 1 = -1.
Proof.
  intros H. unfold Rmin, Rmax.
  destruct (Rle_dec v (-1)); destruct (Rle_dec _ 1); lra.
Qed.

Lemma clamp_high (v : R) : 1 <= v -> Rmin (Rmax v (-1)) 1 = 1.
Proof.
  intros H. unfold Rmin, Rmax.
  destruct (Rle_dec v (-1)); destruct (Rle_dec _ 1); lra.
Qed.

Lemma clamp_inside (v : R) : -1 <= v <= 1 -> Rmin (Rmax v (-1)) 1 = v.
Proof.
  intros H. unfold Rmin, Rmax.
  destruct (Rle_dec v (-1)); destruct (Rle_dec _ 1); lra.
Qed.

(** X9.  The pixels of the output: a value at or below -1 gives 0, a value
    at or above 1 gives 255, the value 0 gives 127 (the conversion
    truncates, it does not round), and a larger value never gives a smaller
    pixel. *)
Theorem postprocess_pixels (n c h k : nat) (x y : tensor R 4) (b j p q : nat) :
  has_shape 4 [n; c; h; k] x = true ->
  has_shape 4 [n; c; h; k] y = true ->
  (b < n)%nat -> (j < c)%nat -> (p < h)%nat -> (q < k)%nat ->
  (entry x b j p q <= -1 -> tget 4 0%Z [b; j; p; q] (postprocess x) = 0%Z) /\
  (1 <= entry x b j p q -> tget 4 0%Z [b; j; p; q] (postprocess x) = 255%Z) /\
  (entry x b j p q = 0 -> tget 4 0%Z [b; j; p; q] (postprocess x) = 127%Z) /\
  (entry x b j p q <= entry y b j p q ->
   (tget 4 0%Z [b; j; p; q] (postprocess x)
    <= tget 4 0%Z [b; j; p; q] (postprocess y))%Z).
Proof.
  intros Hx Hy Hb Hj Hp Hq.
  destruct (postprocess_entries n c h k x Hx) as (_ & _ & Hex).
  destruct (postprocess_entries n c h k y Hy) as (_ & _ & Hey).
  destruct (Hex b j p q Hb Hj Hp Hq) as [Ex _].
  destruct (Hey b j p q Hb Hj Hp Hq) as [Ey _].
  rewrite Ex, Ey. repeat split.
  - intros H. rewrite clamp_low by exact H.
    replace ((-1 + 1) / 2 * 255) with (IZR 0) by (simpl; field).
    apply int_part_IZR.
  - intros H. rewrite clamp_high by exact H.
    replace ((1 + 1) / 2 * 255) with (IZR 255) by (simpl; field).
    apply int_part_IZR.
  - intros H. rewrite H, clamp_inside by lra.
    symmetry. apply Int_part_spec. lra.
  - intros H. apply int_part_le.
    pose proof (clamp_le _ _ H). lra.
Qed.

Lemma postprocess_pixels_witness :
  tget 4 0%Z [0; 0; 0; 0]%nat (postprocess [[[[0]]]]) = 127%Z.
Proof.
  apply (postprocess_pixels 1 1 1 1 [[[[0]]]] [[[[0]]]] 0 0 0 0
           eq_refl eq_refl ltac:(lia) ltac:(lia) ltac:(lia) ltac:(lia)).
  reflexivity.
Defined.

(* ================================================================= *)
(** ** The loss of a training batch *)

Lemma flatten_forall (P : R -> Prop) (r : nat) :
  forall (sh : list nat) (x : tensor R r),
    has_shape r sh x = true ->
    (forall idx, in_bounds sh idx -> P (tget r 0 idx x)) ->
    Forall P (flatten r x).
Proof.
  induction r as [|r IH]; intros sh x Hs Hp.
  - destruct sh; [|discriminate]. constructor; [|constructor].
    apply (Hp []). exact I.
  - destruct sh as [|d sh]; [discriminate|].
    change (tensor R (S r)) with (list (tensor R r)) in x.
    apply has_shape_cons in Hs. destruct Hs as [Hl He].
    change (flatten (S r) (x : tensor R (S r))) with (flat_map (flatten r) x).
    apply Forall_flat_map. apply Forall_forall. intros e Hin.
    apply (IH sh e (He e Hin)). intros idx Hidx.
    destruct (In_nth_error _ _ Hin) as [i Hi].
    assert (Hlt : (i < d)%nat) by (rewrite <- Hl; apply nth_error_Some; congruence).
    specialize (Hp (i :: idx) (conj Hlt Hidx)).
    rewrite tget_cons, Hi in Hp. exact Hp.
Qed.

Lemma mean_nonneg (l : list R) : Forall (fun v => 0 <= v) l -> 0 <= mean l.
Proof.
  intros H. unfold mean, Rdiv. apply Rmult_le_pos.
  - induction H as [|v l Hv _ IH]; simpl in *; lra.
  - destruct (length l) as [|m].
    + simpl. rewrite Rinv_0. lra.
    + left. apply Rinv_0_lt_compat. apply lt_0_INR. lia.
Qed.

Lemma mean_zero (l : list R) : Forall (fun v => v = 0) l -> mean l = 0.
Proof.
  intros H. unfold mean, Rdiv.
  assert (Hs : fold_right Rplus 0 l = 0).
  { induction H as [|v l Hv _ IH]; simpl in *; lra. }
  rewrite Hs. ring.
Qed.

(** The loss between two tensors of one shape. *)
Lemma mse_same_shape (sh : list nat) (input target : tensor R 4) :
  has_shape 4 sh input = true -> has_shape 4 sh target = true ->
  exists loss, mse input target = Ok loss /\ 0 <= loss /\
    (input = target -> loss = 0).
Proof.
  intros Hi Ht.
  destruct (tbin_same_shape (fun a b => (a - b) * (a - b)) 4 sh input target _ _
              (tensor_entries 4 sh input Hi) (tensor_entries 4 sh target Ht))
    as (sq & Hsq & [Hs Hg]).
  exists (mean (flatten 4 sq)). unfold mse. rewrite Hsq. cbn [rbind].
  split; [reflexivity|]. split.
  - apply mean_nonneg. apply (flatten_forall _ 4 sh sq Hs).
    intros idx Hidx. rewrite Hg by exact Hidx. cbv beta.
    apply Rle_0_sqr.
  - intros ->. apply mean_zero. apply (flatten_forall _ 4 sh sq Hs).
    intros idx Hidx. rewrite Hg by exact Hidx. ring.
Qed.

(** X10.  One batch of the training loop, for a schedule of [T >= 2] steps,
    a non-empty batch and a predictor whose predictions have the batch's
    shape: the timesteps that [sample_timestep] draws are all in
    [1, T-1], so [noise_images] accepts them (no index error, and the entry
    [alpha_hat[0]] is never used in training); the loss is computed, it is
    not negative, and it is zero when the prediction is exactly the noise
    that was added. *)
Theorem train_batch_loss_spec (T : Z) (bs be : R) (s : nat) (d : Diffusion)
  (model : Predictor) (n c h k : nat) (images : tensor R 4) (w : World) :
  __init__ T bs be s = Ok d ->
  (2 <= T)%Z ->
  (0 < n)%nat -> (0 < c)%nat -> (0 < h)%nat -> (0 < k)%nat ->
  has_shape 4 [n; c; h; k] images = true ->
  (forall b x t, has_shape 4 [n; c; h; k] x = true ->
     exists e, forward model b x t = Ok e /\ has_shape 4 [n; c; h; k] e = true) ->
  exists t w1 x_t noise w2 e loss,
    sample_timestep d n w = (Ok t, w1) /\
    length t = n /\
    Forall (fun ti => (1 <= ti <= T - 1)%Z) t /\
    noise_images d images t w1 = (Ok (x_t, noise), w2) /\
    forward model (training w) x_t t = Ok e /\
    train_batch_loss d model images w = (Ok loss, w2) /\
    0 <= loss /\
    (e = noise -> loss = 0).
Proof.
  intros Hd HT Hn Hc Hh Hk Himg Hm.
  destruct (init_inv _ _ _ _ _ Hd) as (_ & HTd & _).
  destruct (randint_ok 1 (noise_steps d) n w ltac:(lia)) as (w1 & Hts & Htr1 & _).
  set (t := map (fun i => uniform_int_from_to 1 (noise_steps d) (raw (gen w) i)) (seq 0 n))
    in *.
  assert (Hlt : length t = n) by (unfold t; now rewrite length_map, length_seq).
  assert (Hrange : Forall (fun ti => (1 <= ti <= T - 1)%Z) t).
  { apply Forall_forall. intros ti Hin. apply in_map_iff in Hin.
    destruct Hin as (i & <- & _).
    pose proof (uniform_int_range 1 (noise_steps d) (raw (gen w) i) ltac:(lia)). lia. }
  destruct (noise_images_run T bs be s d n c h k images t w1 Hd Himg Hlt) as
    (x_t & noise & w2 & Hrun & Hxt & Hnoise & _ & _ & Htr2 & _).
  { eapply Forall_impl; [|exact Hrange]. intros ti Hti. simpl in Hti. lia. }
  destruct (Hm (training w) x_t t Hxt) as (e & He & Hes).
  destruct (mse_same_shape [n; c; h; k] noise e Hnoise Hes) as (loss & Hloss & Hpos & Hzero).
  exists t, w1, x_t, noise, w2, e, loss.
  split; [exact Hts|]. split; [exact Hlt|]. split; [exact Hrange|].
  split; [exact Hrun|]. split; [exact He|]. split.
  - unfold train_batch_loss.
    change (tensor R 4) with (list (tensor R 3)) in images.
    apply has_shape_cons in Himg. destruct Himg as [Hlen _].
    rewrite Hlen. unfold mbind at 1.
    unfold sample_timestep in Hts. unfold sample_timestep. rewrite Hts.
    unfold mbind at 1. rewrite Hrun.
    unfold mbind, call, lift. rewrite Htr2, Htr1, He, Hloss. reflexivity.
  - split; [exact Hpos|]. intros ->. now apply Hzero.
Qed.

Lemma train_batch_loss_spec_witness :
  exists d loss w',
    __init__ 10 (1/10) (1/5) 1 = Ok d /\
    train_batch_loss d zero_predictor [[[[1]]]; [[[2]]]] world0 = (Ok loss, w') /\
    0 <= loss.
Proof.
  eexists.
  destruct (train_batch_loss_spec 10 (1/10) (1/5) 1 _ zero_predictor 2 1 1 1
              [[[[1]]]; [[[2]]]] world0 eq_refl
              ltac:(lia) ltac:(lia) ltac:(lia) ltac:(lia) ltac:(lia) eq_refl
              (zero_predictor_shape [2; 1; 1; 1]%nat))
    as (t & w1 & x_t & noise & w2 & e & loss & _ & _ & _ & _ & _ & Hrun & Hpos & _).
  exists loss, w2. split; [reflexivity|]. split; [exact Hrun|exact Hpos].
Defined.
